(** * EquaGrid: equation validation, win detection and variable placement

    A shallow embedding of [logic.py] (the normalizer
    [preprocess_equation_string], the validator [is_valid_equation] and the
    line scanner [check_win_board]) and of the placement rule
    [is_variable_placement_valid] of [gui.py], together with the
    properties the specification states about them.

    Python values are modelled as follows.
    - A [str] is a list of characters; a character is an [ascii], read as
      the code point of that number (U+0000 to U+00FF).
    - A Python [int] is a [Z]; [range(n)] is the list [0; 1; ...; n-1].
    - A function that returns a value or [None] returns an [option].
    - The board is a list of rows, each a list of one-character cells;
      an index outside a list is the [IndexError] the code catches.
    - SymPy is not part of the repository: the validator is written over
      an interface [SymPy] with the calls the code makes ([symbols],
      [sympify], [has], [==], [solve] and the number tests of the
      acceptance loop).  A raised exception is [None]. *)

From Stdlib Require Import List Ascii String ZArith QArith Qabs Qround Bool Lia.
Import ListNotations.

#[local] Open Scope char_scope.
#[local] Open Scope Z_scope.

(** ** Python strings *)

Definition str : Type := list ascii.

(** A string literal. *)
Definition chars (s : string) : str := list_ascii_of_string s.
Arguments chars s%_string.

(** [ch in s] for a one-character [ch]. *)
Definition char_in (ch : ascii) (s : str) : bool :=
  existsb (Ascii.eqb ch) s.

(** [s.count(ch)] for a one-character [ch]. *)
Definition count (ch : ascii) (s : str) : Z :=
  Z.of_nat (List.length (filter (Ascii.eqb ch) s)).

(** [len(s)]. *)
Definition len {A : Type} (s : list A) : Z := Z.of_nat (List.length s).

(** [ch.isdigit()]: the decimal digits and, in this range of code points,
    the superscripts two, three and one (U+00B2, U+00B3, U+00B9). *)
Definition isdigit (ch : ascii) : bool :=
  let n := nat_of_ascii ch in
  ((48 <=? n) && (n <=? 57) || (n =? 178) || (n =? 179) || (n =? 185))%nat.

(** [ch.isspace()] in this range of code points. *)
Definition isspace (ch : ascii) : bool :=
  let n := nat_of_ascii ch in
  ((9 <=? n) && (n <=? 13) || (28 <=? n) && (n <=? 32)
   || (n =? 133) || (n =? 160))%nat.

Fixpoint lstrip (s : str) : str :=
  match s with
  | ch :: tl => if isspace ch then lstrip tl else s
  | [] => []
  end.

(** [s.strip()]. *)
Definition strip (s : str) : str := rev (lstrip (rev (lstrip s))).

(** [s.split(sep, 1)] on a string that contains [sep]: the text before the
    first [sep] and the text after it. *)
Fixpoint split_once (sep : ascii) (s : str) : str * str :=
  match s with
  | [] => ([], [])
  | ch :: tl =>
      if Ascii.eqb ch sep then ([], tl)
      else let (l, r) := split_once sep tl in (ch :: l, r)
  end.

(** [range(n)]. *)
Definition range (n : Z) : list Z := map Z.of_nat (seq 0 (Z.to_nat n)).

(** [range(a, b)]. *)
Definition range_from (a b : Z) : list Z :=
  map (fun k => a + Z.of_nat k) (seq 0 (Z.to_nat (b - a))).

(** The first [Some] that [f] gives along [l]: a [for] loop whose body
    returns from the function as soon as [f] finds something. *)
Fixpoint first_some {A B : Type} (f : A -> option B) (l : list A) : option B :=
  match l with
  | [] => None
  | a :: tl => match f a with Some b => Some b | None => first_some f tl end
  end.

(** ** constants.py *)

Definition MIN_EQ_LEN : Z := 5.
Definition EMPTY_CELL : ascii := " ".

Inductive PlayerId : Type := PlayerA | PlayerB.

(** [PLAYERS[pid]['symbol']]. *)
Definition symbol (pid : PlayerId) : ascii :=
  match pid with PlayerA => "x" | PlayerB => "y" end.

(** [PLAYERS.keys()], in the order of the dictionary. *)
Definition PLAYERS : list PlayerId := [PlayerA; PlayerB].

(** [{p['symbol'] for p in PLAYERS.values()}], as a membership test. *)
Definition in_player_symbols (ch : ascii) : bool :=
  existsb (fun pid => Ascii.eqb ch (symbol pid)) PLAYERS.

(** ** logic.py: the normalizer *)

(** [ch in '+-*/=']. *)
Definition is_op_or_eq (ch : ascii) : bool := char_in ch (chars "+-*/=").

(** [preprocess_equation_string].  The outer [while] is the recursion on
    the string; the inner [while] that collects a number is [digits],
    which copies the digits that follow, adds ["*"] when the number is
    followed by a player symbol, and goes on with the outer loop at the
    first character that is not a digit. *)
Fixpoint preprocess_equation_string (raw_str : str) : str :=
  match raw_str with
  | [] => []
  | ch :: tl =>
      if isdigit ch then
        ch :: (fix digits (t : str) : str :=
                 match t with
                 | [] => []
                 | d :: t' =>
                     if isdigit d then d :: digits t'
                     else if in_player_symbols d
                          then "*" :: preprocess_equation_string t
                          else preprocess_equation_string t
                 end) tl
      else if in_player_symbols ch then
        ch :: match tl with
              | d :: _ => if isdigit d
                          then "*" :: preprocess_equation_string tl
                          else preprocess_equation_string tl
              | [] => preprocess_equation_string tl
              end
      else if is_op_or_eq ch then ch :: preprocess_equation_string tl
      else preprocess_equation_string tl
  end.

(** ** The SymPy calls of [is_valid_equation]

    [Expr] is the type of SymPy expressions (numbers included) and
    [Symbol] the type of what [symbols] returns.  Every operation that can
    raise returns an [option]; the attribute tests are read as Python
    truth values, so the three-valued [None] of SymPy is [false]. *)
Class SymPy : Type := {
  Symbol : Type;
  Expr : Type;
  (** [symbols(player_var)] *)
  symbols : ascii -> option Symbol;
  (** [sympify(s, locals={player_var: var})] *)
  sympify : str -> ascii -> Symbol -> option Expr;
  (** [e.has(var)] *)
  has : Expr -> Symbol -> bool;
  (** [lhs == rhs] *)
  expr_eq : Expr -> Expr -> bool;
  (** [solve(Eq(lhs, rhs), var)] *)
  solve : Expr -> Expr -> Symbol -> option (list Expr);
  is_Integer : Expr -> bool;
  is_Float : Expr -> bool;
  is_Rational : Expr -> bool;
  is_real : Expr -> bool;
  is_finite : Expr -> bool;
  (** [int(s)]; [None] when it raises *)
  int_of : Expr -> option Z;
  (** [s == n] for a Python integer [n] *)
  eq_int : Expr -> Z -> bool;
  (** [s.p] and [s.q] of a rational *)
  rat_p : Expr -> Z;
  rat_q : Expr -> Z;
  (** [round(s)]; [None] when it raises *)
  round_of : Expr -> option Z;
  (** [abs(s - n) < 1e-10]; [false] also when the comparison raises *)
  near : Expr -> Z -> bool
}.

(** [WinResult]: the last three components of the tuple that
    [check_win_board] returns when [win_status] is [True]. *)
Record WinResult : Type := mkWin {
  coordinates : list (Z * Z);
  equation_text : str;
  solution : Z
}.

(** [board[r][c]] for indices that passed the bounds check; [None] is the
    [IndexError] of a board with fewer rows or columns than [size]. *)
Definition board_get (board : list (list ascii)) (r c : Z) : option ascii :=
  match nth_error board (Z.to_nat r) with
  | Some row => nth_error row (Z.to_nat c)
  | None => None
  end.

(** [0 <= r < size and 0 <= c < size]. *)
Definition in_bounds (size r c : Z) : bool :=
  (0 <=? r) && (r <? size) && (0 <=? c) && (c <? size).

(** The eight directions, in the order of the [for] loop of
    [check_win_board]. *)
Definition DIRECTIONS : list (Z * Z) :=
  [(0, 1); (1, 0); (1, 1); (1, -1); (0, -1); (-1, 0); (-1, -1); (-1, 1)].

Section Logic.

Context `{CAS : SymPy}.

(** *** is_valid_equation *)

(** The body of the [try] inside the loop over the solutions: the integer
    a candidate converts to.  [None] is a candidate that does not convert,
    or a conversion that raises: [int], [round] and the comparison raise
    [TypeError] or [ValueError], which the loop catches to go on with the
    next candidate, as it does after a candidate that does not convert. *)
Definition solution_int (s : Expr) : option Z :=
  let other :=
    if is_Rational s && is_finite s && (rat_q s =? 1) then Some (rat_p s)
    else if is_real s && is_finite s then
      match round_of s with
      | Some n => if near s n then Some n else None
      | None => None
      end
    else None in
  if is_Integer s && is_finite s then int_of s
  else if is_Float s && is_finite s then
    match int_of s with
    | Some n => if eq_int s n then Some n else other
    | None => None
    end
  else other.

(** The opponent's symbol: the first symbol of [PLAYERS] that differs from
    [player_var]. *)
Definition opp_var (player_var : ascii) : option ascii :=
  option_map symbol
    (find (fun pid => negb (Ascii.eqb (symbol pid) player_var)) PLAYERS).

(** [any(op in processed for op in '+-*/')]. *)
Definition has_operator (processed : str) : bool :=
  existsb (fun op => char_in op processed) (chars "+-*/").

(** [s.strip() if s.strip() else '0']. *)
Definition side (s : str) : str :=
  match strip s with [] => chars "0" | t => t end.

(** [is_valid_equation].  The test [isinstance(raw_eq_str, str)] holds by
    the type of [raw_eq_str]; every [None] of a SymPy call is an exception
    that the outer [except] turns into [return None]. *)
Definition is_valid_equation (raw_eq_str : str) (player_var : ascii) : option Z :=
  if len raw_eq_str <? MIN_EQ_LEN then None else
  if negb (count "=" raw_eq_str =? 1) then None else
  if negb (char_in player_var raw_eq_str) then None else
  if match opp_var player_var with
     | Some o => char_in o raw_eq_str
     | None => false
     end then None else
  let processed := preprocess_equation_string raw_eq_str in
  if negb (char_in "=" processed) then None else
  if negb (has_operator processed) then None else
  match symbols player_var with
  | None => None
  | Some var =>
      let (lhs_s, rhs_s) := split_once "=" processed in
      match sympify (side lhs_s) player_var var with
      | None => None
      | Some lhs =>
          match sympify (side rhs_s) player_var var with
          | None => None
          | Some rhs =>
              if negb (has lhs var || has rhs var) then None else
              if expr_eq lhs rhs && negb (has lhs var) then None else
              if expr_eq lhs rhs && has lhs var then None else
              match solve lhs rhs var with
              | None => None
              | Some [] => None
              | Some sols => first_some solution_int sols
              end
          end
      end
  end.

(** *** check_win_board *)

(** The forward check and, when it fails, the reversed one. *)
Definition validate_both (raw : str) (coords : list (Z * Z)) (player_sym : ascii)
  : option WinResult :=
  match is_valid_equation raw player_sym with
  | Some sol => Some (mkWin coords raw sol)
  | None =>
      let reversed_raw := rev raw in
      match is_valid_equation reversed_raw player_sym with
      | Some sol => Some (mkWin coords reversed_raw sol)
      | None => None
      end
  end.

(** [if len(raw) >= MIN_EQ_LEN: ...]: the check of a sequence. *)
Definition check_segment (raw : str) (coords : list (Z * Z)) (player_sym : ascii)
  : option WinResult :=
  if MIN_EQ_LEN <=? len raw then validate_both raw coords player_sym else None.

(** The loop [for i in range(size)] from one origin in one direction, on the
    indices [idx] still to visit, with the sequence built so far.  [None]
    is the end of the loop without a [return], by [break] or by exhaustion. *)
Fixpoint extend_line (board : list (list ascii)) (size : Z) (player_sym : ascii)
    (r0 c0 dr dc : Z) (idx : list Z) (raw : str) (coords : list (Z * Z))
  : option WinResult :=
  match idx with
  | [] => None
  | i :: rest =>
      let r := r0 + i * dr in
      let c := c0 + i * dc in
      if negb (in_bounds size r c) then check_segment raw coords player_sym
      else
        match board_get board r c with
        | None => None
        | Some ch =>
            if Ascii.eqb ch EMPTY_CELL then check_segment raw coords player_sym
            else
              let raw' := raw ++ [ch] in
              let coords' := coords ++ [(r, c)] in
              match check_segment raw' coords' player_sym with
              | Some w => Some w
              | None =>
                  extend_line board size player_sym r0 c0 dr dc rest raw' coords'
              end
        end
  end.

(** [check_win_board]: [None] is the tuple [(False, [], None, None)].  The
    first test is [not board]; the three [for] loops return at the first
    win. *)
Definition check_win_board (board : list (list ascii)) (size : Z) (player_sym : ascii)
  : option WinResult :=
  match board with
  | [] => None
  | _ =>
      first_some (fun r0 =>
        first_some (fun c0 =>
          first_some (fun d : Z * Z =>
            let (dr, dc) := d in
            extend_line board size player_sym r0 c0 dr dc (range size) [] [])
            DIRECTIONS)
          (range size))
        (range size)
  end.

End Logic.

(** ** gui.py: the placement rule *)

(** The loop [for i in range(1, self.board_size)] along one direction:
    [true] when it reaches [return False]. *)
Fixpoint ray_hits_opponent (board : list (list ascii)) (board_size : Z)
    (opp_sym : ascii) (r c dr dc : Z) (idx : list Z) : bool :=
  match idx with
  | [] => false
  | i :: rest =>
      let nr := r + i * dr in
      let nc := c + i * dc in
      if negb (in_bounds board_size nr nc) then false
      else
        match board_get board nr nc with
        | None => false
        | Some check_char =>
            if Ascii.eqb check_char opp_sym then true
            else if negb (Ascii.eqb check_char EMPTY_CELL) then false
            else ray_hits_opponent board board_size opp_sym r c dr dc rest
        end
  end.

(** [is_variable_placement_valid], with the fields of [self] it reads as
    arguments; [player_id] is [None] until the server has assigned one. *)
Definition is_variable_placement_valid (board : list (list ascii)) (board_size : Z)
    (player_id : option PlayerId) (r c : Z) : bool :=
  match player_id with
  | None => false
  | Some pid =>
      let opponent_pid :=
        match pid with PlayerA => PlayerB | PlayerB => PlayerA end in
      let opp_sym := symbol opponent_pid in
      negb (existsb (fun dr =>
              existsb (fun dc =>
                if (dr =? 0) && (dc =? 0) then false
                else ray_hits_opponent board board_size opp_sym r c dr dc
                       (range_from 1 board_size))
                (range_from (-1) 2))
              (range_from (-1) 2))
  end.

(** ** An exact-rational solver behind the SymPy interface

    SymPy's source is not in the repository.  The general results are
    proved for every implementation of [SymPy]; the worked examples of the
    specification need one that computes, which this module gives. *)
Module Exact.

Inductive binop : Type := Add | Sub | Mul | Div.

(** Parsed expressions; a number is a fraction in lowest terms. *)
Inductive expr : Type :=
| Num (q : Q)
| Var
| Bin (op : binop) (l r : expr).

Inductive token : Type :=
| TNum (n : Z)
| TVar
| TOp (op : binop).

Definition digit_val (ch : ascii) : option Z :=
  let n := nat_of_ascii ch in
  if ((48 <=? n) && (n <=? 57))%nat then Some (Z.of_nat n - 48) else None.

Definition op_of (ch : ascii) : option binop :=
  if Ascii.eqb ch "+" then Some Add
  else if Ascii.eqb ch "-" then Some Sub
  else if Ascii.eqb ch "*" then Some Mul
  else if Ascii.eqb ch "/" then Some Div
  else None.

Definition flush (cur : option Z) : list token :=
  match cur with Some n => [TNum n] | None => [] end.

(** Modelled from the spec: SymPy's tokenizer is missing; section 4.2
    parses over "integer literals, the single variable, and [{+,-,*,/}]"
    and makes "any other malformed-token condition" a parse failure.
    [cur] is the integer literal being read. *)
Fixpoint lex (x : ascii) (cur : option Z) (s : str) : option (list token) :=
  match s with
  | [] => Some (flush cur)
  | ch :: tl =>
      match digit_val ch with
      | Some d =>
          lex x (Some (10 * match cur with Some n => n | None => 0 end + d)) tl
      | None =>
          match (match op_of ch with
                 | Some o => Some (TOp o)
                 | None => if Ascii.eqb ch x then Some TVar else None
                 end) with
          | None => None
          | Some t =>
              match lex x None tl with
              | Some ts => Some (flush cur ++ t :: ts)
              | None => None
              end
          end
      end
  end.

Definition factor (t : token) : option expr :=
  match t with
  | TNum n => Some (Num (inject_Z n))
  | TVar => Some Var
  | TOp _ => None
  end.

Definition is_literal_zero (e : expr) : bool :=
  match e with Num q => Qnum q =? 0 | _ => false end.

(** Modelled from the spec: SymPy's parser is missing; section 4.2 parses
    "with standard precedence and left-to-right associativity for
    same-precedence operators", and "division by a literal zero [...] is a
    parse failure".  [sum] is the sum to the left of the product [term]
    being read. *)
Fixpoint parse_ops (sum : expr -> expr) (term : expr) (ts : list token)
  : option expr :=
  match ts with
  | [] => Some (sum term)
  | TOp o :: t :: rest =>
      match factor t with
      | None => None
      | Some f =>
          match o with
          | Mul => parse_ops sum (Bin Mul term f) rest
          | Div => if is_literal_zero f then None
                   else parse_ops sum (Bin Div term f) rest
          | Add => parse_ops (fun e => Bin Add (sum term) e) f rest
          | Sub => parse_ops (fun e => Bin Sub (sum term) e) f rest
          end
      end
  | _ => None
  end.

Definition parse (ts : list token) : option expr :=
  match ts with
  | t :: rest =>
      match factor t with
      | Some f => parse_ops (fun e => e) f rest
      | None => None
      end
  | [] => None
  end.

(** Modelled from the spec: SymPy's [sympify] is missing; it is the
    tokenizer followed by the parser of section 4.2. *)
Definition sympify (s : str) (player_var : ascii) (var : ascii) : option expr :=
  match lex var None s with
  | Some ts => parse ts
  | None => None
  end.

(** Modelled from the spec: SymPy's [has] is missing; "the variable must
    still appear in at least one side's parsed form". *)
Fixpoint has (e : expr) (var : ascii) : bool :=
  match e with
  | Num _ => false
  | Var => true
  | Bin _ l r => has l var || has r var
  end.

Definition binop_eqb (a b : binop) : bool :=
  match a, b with
  | Add, Add | Sub, Sub | Mul, Mul | Div, Div => true
  | _, _ => false
  end.

(** Modelled from the spec: SymPy's [==] is missing; the two sides are
    "structurally identical". *)
Fixpoint expr_eq (a b : expr) : bool :=
  match a, b with
  | Num p, Num q => (Qnum p =? Qnum q) && (Pos.eqb (Qden p) (Qden q))
  | Var, Var => true
  | Bin o l r, Bin o' l' r' => binop_eqb o o' && expr_eq l l' && expr_eq r r'
  | _, _ => false
  end.

Definition Qzero (q : Q) : bool := Qnum q =? 0.

(** The normal form [a * x + b] of an expression of degree at most one, as
    [(a, b)]; [None] for a product of two terms with the variable or a
    division by one. *)
Fixpoint linear (e : expr) : option (Q * Q) :=
  match e with
  | Num q => Some (0, q)%Q
  | Var => Some (1, 0)%Q
  | Bin o l r =>
      match linear l, linear r with
      | Some (a1, b1), Some (a2, b2) =>
          match o with
          | Add => Some (a1 + a2, b1 + b2)%Q
          | Sub => Some (a1 - a2, b1 - b2)%Q
          | Mul => if Qzero a1 then Some (b1 * a2, b1 * b2)%Q
                   else if Qzero a2 then Some (a1 * b2, b1 * b2)%Q
                   else None
          | Div => if Qzero a2 && negb (Qzero b2)
                   then Some (a1 / b2, b1 / b2)%Q
                   else None
          end
      | _, _ => None
      end
  end.

(** Modelled from the spec: SymPy's solver is missing; section 4.2 moves
    all terms to one side and solves for the variable, and section 9
    gives the closed form [x = -b/a] for degree at most one and lets an
    implementation restrict itself to that degree.  A relation of higher
    degree is refused ([None]); no solution or infinitely many give the
    empty list. *)
Definition solve (lhs rhs : expr) (var : ascii) : option (list expr) :=
  match linear lhs, linear rhs with
  | Some (a1, b1), Some (a2, b2) =>
      let a := (a1 - a2)%Q in
      let b := (b1 - b2)%Q in
      if Qzero a then Some []
      else Some [Num (Qred (- b / a))]
  | _, _ => None
  end.

Definition is_number (e : expr) : bool :=
  match e with Num _ => true | _ => false end.

Definition is_Integer (e : expr) : bool :=
  match e with Num q => Pos.eqb (Qden q) 1 | _ => false end.

(** Modelled from the spec: SymPy's numbers are missing; a solution is an
    exact fraction, an integer when its denominator is 1.  [int(s)]
    truncates towards zero and is a [TypeError] off the numbers. *)
Definition int_of (e : expr) : option Z :=
  match e with
  | Num q => Some (Z.quot (Qnum q) (Zpos (Qden q)))
  | _ => None
  end.

Definition eq_int (e : expr) (n : Z) : bool :=
  match e with Num q => Qeq_bool q (inject_Z n) | _ => false end.

Definition rat_p (e : expr) : Z :=
  match e with Num q => Qnum q | _ => 0 end.

Definition rat_q (e : expr) : Z :=
  match e with Num q => Zpos (Qden q) | _ => 0 end.

(** Rounding to the nearest integer, a tie to the even one. *)
Definition Qround_even (q : Q) : Z :=
  let f := Qfloor q in
  match (q - inject_Z f ?= 1 # 2)%Q with
  | Lt => f
  | Gt => f + 1
  | Eq => if Z.even f then f else f + 1
  end.

Definition round_of (e : expr) : option Z :=
  match e with Num q => Some (Qround_even q) | _ => None end.

(** [abs(s - n) < 1e-10], on exact fractions. *)
Definition near (e : expr) (n : Z) : bool :=
  match e with
  | Num q =>
      match (Qabs (q - inject_Z n) ?= 1 # 10000000000)%Q with
      | Lt => true
      | _ => false
      end
  | _ => false
  end.

(** Modelled from the spec: the SymPy calls of [is_valid_equation], by the
    definitions above.  The numbers are exact, so nothing is a [Float]
    (section 9 prefers "an exact-rational solving strategy"). *)
#[export] Instance cas : SymPy :=
  Build_SymPy ascii expr (fun v => Some v) sympify has expr_eq solve
    is_Integer (fun _ => false) is_number is_number is_number
    int_of eq_int rat_p rat_q round_of near.

(** [validate] and [find_win] of the specification over this solver. *)
Definition validate : str -> ascii -> option Z := is_valid_equation.
Definition find_win : list (list ascii) -> Z -> ascii -> option WinResult :=
  check_win_board.

End Exact.

(** ** What the specification says, for the statements below *)

(** A candidate of the scan: the coordinates of a run and the text to
    validate, the run's characters as written or reversed. *)
Definition candidate : Type := list (Z * Z) * str.

(** The two candidates of a run, the forward string first. *)
Definition both_ways (cells : list ((Z * Z) * ascii)) : list candidate :=
  [(map fst cells, map snd cells); (map fst cells, rev (map snd cells))].

(** Nothing shorter than [MIN_EQ_LEN] is tested. *)
Definition qualifying (cells : list ((Z * Z) * ascii)) : list candidate :=
  if MIN_EQ_LEN <=? len cells then both_ways cells else [].

(** The walk from an origin along a direction over the steps [idx]: the
    non-empty cells stepped on, and whether the walk ended on a
    terminating cell (off the board, or empty) rather than by running out
    of steps or of board. *)
Fixpoint run_cells (board : list (list ascii)) (size r0 c0 dr dc : Z)
    (idx : list Z) : list ((Z * Z) * ascii) * bool :=
  match idx with
  | [] => ([], false)
  | i :: rest =>
      let r := r0 + i * dr in
      let c := c0 + i * dc in
      if negb (in_bounds size r c) then ([], true)
      else
        match board_get board r c with
        | None => ([], false)
        | Some ch =>
            if Ascii.eqb ch EMPTY_CELL then ([], true)
            else
              let (cells, boundary) := run_cells board size r0 c0 dr dc rest in
              (((r, c), ch) :: cells, boundary)
        end
  end.

(** The candidates of one walk in the order they are tested: the run after
    each extension, from the shortest, and the run before the terminating
    cell once more at the boundary. *)
Definition ray_candidates (walk : list ((Z * Z) * ascii) * bool) : list candidate :=
  let (cells, boundary) := walk in
  flat_map (fun k => qualifying (firstn k cells)) (seq 1 (List.length cells))
  ++ (if boundary then qualifying cells else []).

(** The candidates still to come on a walk that has already collected the
    cells [acc]. *)
Definition candidates_after (acc : list ((Z * Z) * ascii))
    (walk : list ((Z * Z) * ascii) * bool) : list candidate :=
  flat_map (fun k => qualifying (acc ++ firstn k (fst walk)))
           (seq 1 (List.length (fst walk)))
  ++ (if snd walk then qualifying (acc ++ fst walk) else []).

(** All candidates of a board: origins in row-major order, then the
    directions in their fixed order, then the candidates of the walk. *)
Definition candidates (board : list (list ascii)) (size : Z) : list candidate :=
  flat_map (fun r0 =>
    flat_map (fun c0 =>
      flat_map (fun d : Z * Z =>
        ray_candidates (run_cells board size r0 c0 (fst d) (snd d) (range size)))
        DIRECTIONS)
      (range size))
    (range size).

(** Two boards agree on a list of coordinates. *)
Definition agree_on (b1 b2 : list (list ascii)) (coords : list (Z * Z)) : Prop :=
  forall rc, In rc coords -> board_get b2 (fst rc) (snd rc) = board_get b1 (fst rc) (snd rc).

(** The content of a cell of the board, [None] off the board. *)
Definition cell_at (board : list (list ascii)) (size r c : Z) : option ascii :=
  if in_bounds size r c then board_get board r c else None.

(** The first non-empty cell met on the ray from [(r, c)] in direction
    [(dr, dc)] holds [ch]: it is [k] steps away and the cells before it
    are on the board and empty. *)
Definition first_nonempty (board : list (list ascii)) (size r c dr dc : Z)
    (ch : ascii) : Prop :=
  exists k : Z,
    1 <= k /\
    (forall j, 1 <= j < k ->
       cell_at board size (r + j * dr) (c + j * dc) = Some EMPTY_CELL) /\
    cell_at board size (r + k * dr) (c + k * dc) = Some ch /\
    ch <> EMPTY_CELL.

(** One of the eight unit directions. *)
Definition is_direction (dr dc : Z) : Prop :=
  -1 <= dr <= 1 /\ -1 <= dc <= 1 /\ (dr <> 0 \/ dc <> 0).

Definition opponent (pid : PlayerId) : PlayerId :=
  match pid with PlayerA => PlayerB | PlayerB => PlayerA end.

(** A board of [size] rows of [size] cells. *)
Definition square (board : list (list ascii)) (size : Z) : Prop :=
  len board = size /\ Forall (fun row => len row = size) board.

(** No cell of the board holds a symbol. *)
Definition all_empty (board : list (list ascii)) : Prop :=
  forall r c ch, board_get board r c = Some ch -> ch = EMPTY_CELL.

Section Statements.

Context `{CAS : SymPy}.

(** A candidate that validates, as a [WinResult]. *)
Definition try_candidate (player_sym : ascii) (c : candidate) : option WinResult :=
  match is_valid_equation (snd c) player_sym with
  | Some sol => Some (mkWin (fst c) (snd c) sol)
  | None => None
  end.

(** The four structural prechecks of section 4.2. *)
Definition structural_prechecks (raw : str) (variable : ascii) : bool :=
  (MIN_EQ_LEN <=? len raw)
  && (count "=" raw =? 1)
  && char_in variable raw
  && negb (match opp_var variable with
           | Some o => char_in o raw
           | None => false
           end).

(** The two sides of the normalized form of [raw], parsed. *)
Definition parse_sides (raw : str) (variable : ascii)
  : option (Symbol * Expr * Expr) :=
  match symbols variable with
  | None => None
  | Some var =>
      let (lhs_s, rhs_s) := split_once "=" (preprocess_equation_string raw) in
      match sympify (side lhs_s) variable var,
            sympify (side rhs_s) variable var with
      | Some lhs, Some rhs => Some (var, lhs, rhs)
      | _, _ => None
      end
  end.

(** [raw] reaches the semantic checks with the sides [lhs] and [rhs]: it
    passed the prechecks and the two tests on the normalized form, and
    both sides parsed. *)
Definition reaches_semantic_checks (raw : str) (variable : ascii)
    (var : Symbol) (lhs rhs : Expr) : Prop :=
  structural_prechecks raw variable = true /\
  has_operator (preprocess_equation_string raw) = true /\
  parse_sides raw variable = Some (var, lhs, rhs).

(** [raw] reaches the solver, which answers with the candidates [sols]. *)
Definition reaches_solver (raw : str) (variable : ascii) (sols : list Expr) : Prop :=
  exists var lhs rhs,
    reaches_semantic_checks raw variable var lhs rhs /\
    (has lhs var || has rhs var) = true /\
    expr_eq lhs rhs = false /\
    solve lhs rhs var = Some sols.

(** The normalized form of [raw] parses as [lhs = rhs], neither a trivial
    numeric truth nor an identity, with the integer [n] as its unique
    solution. *)
Definition unique_integer_solution (raw : str) (variable : ascii) (n : Z) : Prop :=
  exists var lhs rhs s,
    parse_sides raw variable = Some (var, lhs, rhs) /\
    (has lhs var || has rhs var) = true /\
    expr_eq lhs rhs = false /\
    solve lhs rhs var = Some [s] /\
    is_Integer s = true /\ is_finite s = true /\ int_of s = Some n.

(** The acceptance rule of section 4.2 for one candidate: an exact
    integer, or a rational with denominator 1, or a finite real within
    [1e-10] of its nearest integer, rounded to that integer. *)
Definition accepted (s : Expr) : option Z :=
  if is_Integer s && is_finite s then int_of s
  else if is_Rational s && is_finite s && (rat_q s =? 1) then Some (rat_p s)
  else if is_real s && is_finite s then
    match round_of s with
    | Some n => if near s n then Some n else None
    | None => None
    end
  else None.

(** What SymPy guarantees of a [Float]: it is not of the class
    [Rational]; a finite one is real and [int] converts it; and one that
    equals an integer rounds to that integer, at distance zero. *)
Record FloatLaws : Prop := {
  float_not_rational : forall s, is_Float s = true -> is_Rational s = false;
  float_real : forall s, is_Float s = true -> is_finite s = true -> is_real s = true;
  float_int : forall s, is_Float s = true -> is_finite s = true -> int_of s <> None;
  float_exact : forall s n, is_Float s = true -> int_of s = Some n ->
                  eq_int s n = true -> round_of s = Some n /\ near s n = true
}.

End Statements.

(** The boards of the examples: 6 x 6, rows as strings. *)
Definition board_of (rows : list string) : list (list ascii) :=
  map list_ascii_of_string rows.

Definition board_one_line : list (list ascii) :=
  board_of ["      "; "      "; "x+2=5 "; "      "; "      "; "      "]%string.

Definition board_two_lines : list (list ascii) :=
  board_of ["x+1=3 "; "      "; "x+2=5 "; "      "; "      "; "      "]%string.

Definition board_blocked : list (list ascii) :=
  board_of ["    "; " 7  "; "    "; "   y"]%string.

(** ** Further notions for the normalizer, the scan and the placement rule *)

(** A character that the normalizer copies: a digit, a player symbol, or
    one of ['+-*/=']. *)
Definition kept (ch : ascii) : bool :=
  isdigit ch || in_player_symbols ch || is_op_or_eq ch.

(** A digit and a player symbol next to each other, in either order. *)
Definition implicit_product (a b : ascii) : bool :=
  isdigit a && in_player_symbols b || in_player_symbols a && isdigit b.

(** The normalizer as one pass over the raw string: each character is
    copied or dropped, and a ["*"] follows it when it forms an implicit
    product with the raw character after it. *)
Fixpoint one_pass (s : str) : str :=
  match s with
  | [] => []
  | a :: tl =>
      (if kept a then [a] else [])
      ++ match tl with
         | b :: _ => if implicit_product a b then ["*"] else []
         | [] => []
         end
      ++ one_pass tl
  end.

(** No two neighbours of the string form an implicit product. *)
Fixpoint no_implicit_product (s : str) : bool :=
  match s with
  | a :: tl =>
      match tl with
      | b :: _ => negb (implicit_product a b) && no_implicit_product tl
      | [] => true
      end
  | [] => true
  end.

Definition not_star (ch : ascii) : bool := negb (Ascii.eqb ch "*").

(** The [k] coordinates of the straight line that leaves [(r0, c0)] in
    direction [(dr, dc)]. *)
Definition line (r0 c0 dr dc k : Z) : list (Z * Z) :=
  map (fun i => (r0 + i * dr, c0 + i * dc)) (range k).

(** The cells of the board at a list of coordinates. *)
Definition cells_at (board : list (list ascii)) (coords : list (Z * Z))
  : list (option ascii) :=
  map (fun rc => board_get board (fst rc) (snd rc)) coords.

(** [b2] has every symbol of [b1] where [b1] has it: [b2] is [b1] after
    further placements on empty cells. *)
Definition extends (b1 b2 : list (list ascii)) : Prop :=
  forall r c ch,
    board_get b1 r c = Some ch -> ch <> EMPTY_CELL -> board_get b2 r c = Some ch.

(** ** gui.py: the game state of the client

    The fields of [ClientGUI] that the game logic reads and writes.
    [root_alive] stands for [self.root and self.root.winfo_exists()]: the
    window exists until [on_closing] destroys it.  The widgets, the dialogs
    and the log are left out: they do not write any of these fields. *)
Record ClientGUI : Type := mkClient {
  board : list (list ascii);
  board_size : Z;
  player_id : option PlayerId;
  current_turn : PlayerId;
  selected_char : option ascii;
  game_over : bool;
  gui_initialized : bool;
  gui_running : bool;
  root_alive : bool
}.

Definition DEFAULT_BOARD_SIZE : Z := 6.

(** The state after [__init__]. *)
Definition new_client : ClientGUI :=
  mkClient [] DEFAULT_BOARD_SIZE None PlayerA None false false false false.

(** The state once [start] has created the window and connected. *)
Definition started_client : ClientGUI :=
  mkClient [] DEFAULT_BOARD_SIZE None PlayerA None false false true true.

(** [[[EMPTY_CELL] * n for _ in range(n)]]: [n] rows, each a list of its
    own. *)
Definition empty_board (n : Z) : list (list ascii) :=
  repeat (repeat EMPTY_CELL (Z.to_nat n)) (Z.to_nat n).

(** [l[i] = x] for [0 <= i]; [None] is the [IndexError]. *)
Fixpoint list_set {X : Type} (l : list X) (i : nat) (x : X) : option (list X) :=
  match l, i with
  | [], _ => None
  | _ :: tl, O => Some (x :: tl)
  | a :: tl, S j =>
      match list_set tl j x with
      | Some tl' => Some (a :: tl')
      | None => None
      end
  end.

(** [board[r][c] = ch] for indices that passed the bounds check: the row
    is updated in place, the other rows are untouched. *)
Definition board_set (b : list (list ascii)) (r c : Z) (ch : ascii)
  : option (list (list ascii)) :=
  match nth_error b (Z.to_nat r) with
  | None => None
  | Some row =>
      match list_set row (Z.to_nat c) ch with
      | None => None
      | Some row' => list_set b (Z.to_nat r) row'
      end
  end.

(** [l[i]] with Python's indices: a negative index counts from the end;
    [None] is the [IndexError]. *)
Definition py_index {X : Type} (l : list X) (i : Z) : option X :=
  if 0 <=? i then nth_error l (Z.to_nat i)
  else if - len l <=? i then nth_error l (Z.to_nat (len l + i))
  else None.

(** [on_closing(force_close=True)]: the confirmation is skipped, the game
    is marked over, the connection and the window are closed. *)
Definition on_closing_forced (st : ClientGUI) : ClientGUI :=
  mkClient (board st) (board_size st) (player_id st) (current_turn st)
    (selected_char st) true (gui_initialized st) false false.

(** [on_closing]; [answer] is what the confirmation dialog returns
    ([True] when it fails). *)
Definition on_closing (st : ClientGUI) (force_close answer : bool) : ClientGUI :=
  let confirm :=
    if negb force_close && root_alive st then answer else force_close in
  if confirm then on_closing_forced st else st.

(** [initialize_game]. *)
Definition initialize_game (st : ClientGUI) (pid : PlayerId) (size : Z) : ClientGUI :=
  if negb ((4 <=? size) && (size <=? 30)) then on_closing_forced st
  else
    let st1 :=
      mkClient (empty_board size) size (Some pid) PlayerA (selected_char st)
        false (gui_initialized st) (gui_running st) (root_alive st) in
    if negb (root_alive st1) then
      mkClient (board st1) (board_size st1) (player_id st1) (current_turn st1)
        (selected_char st1) (game_over st1) (gui_initialized st1) false
        (root_alive st1)
    else
      mkClient (board st1) (board_size st1) (player_id st1) (current_turn st1)
        (selected_char st1) (game_over st1) true (gui_running st1)
        (root_alive st1).

(** [reset_board_gui]. *)
Definition reset_board_gui (st : ClientGUI) : ClientGUI :=
  if negb (gui_initialized st) || negb (root_alive st) then st
  else
    mkClient (empty_board (board_size st)) (board_size st) (player_id st)
      PlayerA None false (gui_initialized st) (gui_running st) (root_alive st).

(** [on_char_select]. *)
Definition on_char_select (st : ClientGUI) (char : ascii) : ClientGUI :=
  if game_over st || negb (gui_initialized st) || negb (gui_running st) then st
  else
    mkClient (board st) (board_size st) (player_id st) (current_turn st)
      (Some char) (game_over st) (gui_initialized st) (gui_running st)
      (root_alive st).

(** The messages that [handle_server_message] tells apart by their
    ['type']; the fields of a message have the types the handlers use
    them at. *)
Inductive ServerMsg : Type :=
| MsgInit (player : PlayerId) (size : Z)
| MsgMove (player : PlayerId) (row col : Z) (char : ascii)
| MsgReset
| MsgOpponentLeft
| MsgFull
| MsgError
| MsgInternalError
| MsgInternalClosed
| MsgUnknown.

Definition is_internal_closed (msg : ServerMsg) : bool :=
  match msg with MsgInternalClosed => true | _ => false end.

(** The dictionary that [on_cell_click] sends. *)
Record MoveData : Type := mkMove {
  move_player : PlayerId;
  move_row : Z;
  move_col : Z;
  move_char : ascii
}.

(** How [on_cell_click] ends: one of its early returns, or the move it
    hands to [send_message]. *)
Inductive ClickResult : Type :=
| ClickIgnored
| NotYourTurn
| NoSelection
| Occupied
| ClickIndexError
| InvalidPlacement
| SendMove (m : MoveData).

Definition PlayerId_eqb (p q : PlayerId) : bool :=
  match p, q with
  | PlayerA, PlayerA | PlayerB, PlayerB => true
  | _, _ => false
  end.

(** [on_cell_click]; [send_ok] is what [self.network.send_message]
    returns. *)
Definition on_cell_click (st : ClientGUI) (send_ok : bool) (r c : Z)
  : ClientGUI * ClickResult :=
  if game_over st || negb (gui_initialized st) || negb (gui_running st)
  then (st, ClickIgnored)
  else
    match player_id st with
    | None => (st, NotYourTurn)
    | Some me =>
        if negb (PlayerId_eqb (current_turn st) me) then (st, NotYourTurn)
        else
          match selected_char st with
          | None => (st, NoSelection)
          | Some sel =>
              match match py_index (board st) r with
                    | Some row => py_index row c
                    | None => None
                    end with
              | None => (st, ClickIndexError)
              | Some cell =>
                  if negb (Ascii.eqb cell EMPTY_CELL) then (st, Occupied)
                  else if Ascii.eqb sel (symbol me)
                          && negb (is_variable_placement_valid (board st)
                                     (board_size st) (player_id st) r c)
                  then (st, InvalidPlacement)
                  else
                    (if send_ok
                     then mkClient (board st) (board_size st) (player_id st)
                            (current_turn st) None (game_over st)
                            (gui_initialized st) (gui_running st) (root_alive st)
                     else st,
                     SendMove (mkMove me r c sel))
              end
          end
    end.

Section ClientMessages.

Context `{CAS : SymPy}.

(** The branch ['move'] of [handle_server_message]: the new state and,
    when the move ends the game, the winner with the winning line. *)
Definition handle_move (st : ClientGUI) (pid : PlayerId) (r c : Z) (ch : ascii)
  : ClientGUI * option (PlayerId * WinResult) :=
  if game_over st then (st, None)
  else if negb ((0 <=? r) && (r <? board_size st)
                && (0 <=? c) && (c <? board_size st)) then (st, None)
  else
    match board_set (board st) r c ch with
    | None => (st, None)
    | Some b =>
        let win :=
          match check_win_board b (board_size st) (symbol pid) with
          | Some w => Some (pid, w)
          | None =>
              let opponent_pid :=
                match pid with PlayerA => PlayerB | PlayerB => PlayerA end in
              match check_win_board b (board_size st) (symbol opponent_pid) with
              | Some w => Some (opponent_pid, w)
              | None => None
              end
          end in
        match win with
        | Some _ =>
            (mkClient b (board_size st) (player_id st) (current_turn st)
               (selected_char st) true (gui_initialized st) (gui_running st)
               (root_alive st), win)
        | None =>
            (mkClient b (board_size st) (player_id st)
               (match pid with PlayerA => PlayerB | PlayerB => PlayerA end)
               (selected_char st) (game_over st) (gui_initialized st)
               (gui_running st) (root_alive st), None)
        end
    end.

(** [handle_server_message]. *)
Definition handle_server_message (st : ClientGUI) (msg : ServerMsg)
  : ClientGUI * option (PlayerId * WinResult) :=
  if negb (root_alive st) && negb (is_internal_closed msg) then (st, None)
  else
    match msg with
    | MsgInit pid size =>
        if negb (gui_initialized st) then (initialize_game st pid size, None)
        else (st, None)
    | _ =>
        if negb (gui_initialized st) || negb (gui_running st) then (st, None)
        else
          match msg with
          | MsgInit _ _ => (st, None)
          | MsgMove pid r c ch => handle_move st pid r c ch
          | MsgReset => (reset_board_gui st, None)
          | MsgOpponentLeft =>
              (mkClient (board st) (board_size st) (player_id st)
                 (current_turn st) (selected_char st) true
                 (gui_initialized st) (gui_running st) (root_alive st), None)
          | MsgFull => (on_closing_forced st, None)
          | MsgError => (st, None)
          | MsgInternalError => (st, None)
          | MsgInternalClosed =>
              (mkClient (board st) (board_size st) (player_id st)
                 (current_turn st) (selected_char st) (game_over st)
                 (gui_initialized st) false (root_alive st), None)
          | MsgUnknown => (st, None)
          end
    end.

(** What the main thread of the client reacts to: a message taken from the
    queue, a click on a cell (with the outcome of the send, if it comes to
    one), a click on a character button, a request to close the window. *)
Inductive ClientEvent : Type :=
| FromServer (msg : ServerMsg)
| CellClick (send_ok : bool) (r c : Z)
| CharSelect (char : ascii)
| Closing (force_close answer : bool).

Definition client_step (st : ClientGUI) (e : ClientEvent) : ClientGUI :=
  match e with
  | FromServer msg => fst (handle_server_message st msg)
  | CellClick send_ok r c => fst (on_cell_click st send_ok r c)
  | CharSelect char => on_char_select st char
  | Closing force_close answer => on_closing st force_close answer
  end.

(** The events handled one after the other. *)
Definition run_client (st : ClientGUI) (events : list ClientEvent) : ClientGUI :=
  fold_left client_step events st.

End ClientMessages.

(** The game state is consistent: once the client is initialized its
    board is a square of side [board_size], between 4 and 30. *)
Definition consistent (st : ClientGUI) : Prop :=
  gui_initialized st = true ->
  4 <= board_size st <= 30 /\ square (board st) (board_size st).

(** [GUI_SIZE_PRESETS] of constants.py: a threshold on the board size
    with the font sizes of the board and of the character buttons. *)
Definition GUI_SIZE_PRESETS : list (Z * (Z * Z)) :=
  [(8, (14, 10)); (12, (12, 10)); (16, (10, 9)); (22, (9, 8)); (30, (7, 8))].

(** The font sizes that [_build_gui] picks: those of the first preset
    whose threshold is not below the board size, by default those of the
    last preset. *)
Definition font_sizes (size : Z) : Z * Z :=
  match find (fun p => size <=? fst p) GUI_SIZE_PRESETS with
  | Some p => snd p
  | None => snd (last GUI_SIZE_PRESETS (0, (0, 0)))
  end.

(** ** network.py: the list of clients of the server

    What [GameServer] does to [self.clients] inside [with self.lock]; a
    socket is known by its identity. *)
Section Server.

Variable Socket : Type.
Variable socket_eqb : Socket -> Socket -> bool.

(** The search of [remove_client] for the first entry of the socket. *)
Definition find_client (clients : list (Socket * PlayerId)) (client_socket : Socket)
  : option (Socket * PlayerId) :=
  find (fun c => socket_eqb (fst c) client_socket) clients.

(** [list.remove(x)]: the list without its first element equal to [x]. *)
Fixpoint list_remove (x : Socket * PlayerId) (l : list (Socket * PlayerId))
  : list (Socket * PlayerId) :=
  match l with
  | [] => []
  | a :: tl =>
      if socket_eqb (fst a) (fst x) && PlayerId_eqb (snd a) (snd x)
      then tl else a :: list_remove x tl
  end.

(** [remove_client]: the new list and [client_removed], which says whether
    the socket is closed. *)
Definition remove_client (clients : list (Socket * PlayerId)) (client_socket : Socket)
  : list (Socket * PlayerId) * bool :=
  match find_client clients client_socket with
  | Some client_tuple => (list_remove client_tuple clients, true)
  | None => (clients, false)
  end.

(** One turn of the accept loop of [start]: the id given to the new
    connection, the new list and the new [player_count]. *)
Definition accept_client (clients : list (Socket * PlayerId)) (player_count : Z)
    (client_socket : Socket) : PlayerId * list (Socket * PlayerId) * Z :=
  let player_id := if player_count =? 0 then PlayerA else PlayerB in
  (player_id, clients ++ [(client_socket, player_id)], player_count + 1).

(** An entry of the list for player A. *)
Definition is_player_A (c : Socket * PlayerId) : bool := PlayerId_eqb (snd c) PlayerA.

(** What happens to the list: a connection is accepted or a client is
    removed. *)
Inductive ServerEvent : Type :=
| Accept (s : Socket)
| Remove (s : Socket).

Definition server_step (st : list (Socket * PlayerId) * Z) (e : ServerEvent)
  : list (Socket * PlayerId) * Z :=
  match e with
  | Accept s =>
      let '(_, clients, n) := accept_client (fst st) (snd st) s in (clients, n)
  | Remove s => (fst (remove_client (fst st) s), snd st)
  end.

End Server.

(** The states of the examples: a client as player A on a 6 x 6 board,
    with ["x+2="] in row 2 and ["5"] selected; the same client once the
    line is complete and the game over. *)
Definition board_almost : list (list ascii) :=
  board_of ["      "; "      "; "x+2=  "; "      "; "      "; "      "]%string.

Definition client_about_to_win : ClientGUI :=
  mkClient board_almost 6 (Some PlayerA) PlayerA (Some "5"%char)
    false true true true.

Definition client_finished : ClientGUI :=
  mkClient board_one_line 6 (Some PlayerA) PlayerA None true true true true.

(** The win of the examples: ["x+2=5"] in row 2. *)
Definition win_row_2 : WinResult :=
  mkWin [(2, 0); (2, 1); (2, 2); (2, 3); (2, 4)] (chars "x+2=5") 3.

Definition board_shielded : list (list ascii) :=
  board_of ["    "; " 7  "; "   +"; "   y"]%string.

Definition board_two_opponents : list (list ascii) :=
  board_of ["y   "; " 7  "; "    "; "   y"]%string.

(** * Properties *)

(** ** Loops that return at the first hit *)

Lemma first_some_app {X Y : Type} (f : X -> option Y) (l1 l2 : list X) :
  first_some f (l1 ++ l2) =
  match first_some f l1 with Some b => Some b | None => first_some f l2 end.
Proof.
  induction l1 as [|a l1 IH]; simpl; [reflexivity|].
  destruct (f a); [reflexivity | exact IH].
Qed.

Lemma first_some_flat_map {X Y W : Type} (f : Y -> option W) (g : X -> list Y)
    (l : list X) :
  first_some f (flat_map g l) = first_some (fun a => first_some f (g a)) l.
Proof.
  induction l as [|a l IH]; simpl; [reflexivity|].
  rewrite first_some_app, IH. reflexivity.
Qed.

Lemma first_some_ext {X Y : Type} (f g : X -> option Y) (l : list X) :
  (forall a, In a l -> f a = g a) -> first_some f l = first_some g l.
Proof.
  induction l as [|a l IH]; simpl; intros E; [reflexivity|].
  rewrite (E a (or_introl eq_refl)).
  destruct (g a); [reflexivity|]. apply IH. intros b Hb. apply E. now right.
Qed.

Lemma first_some_None {X Y : Type} (f : X -> option Y) (l : list X) :
  first_some f l = None <-> forall a, In a l -> f a = None.
Proof.
  induction l as [|a l IH]; simpl.
  - split; [intros _ a [] | reflexivity].
  - destruct (f a) eqn:E.
    + split; [discriminate|]. intros H. rewrite <- E. apply H. now left.
    + rewrite IH. split.
      * intros H b [<-|Hb]; [exact E | now apply H].
      * intros H b Hb. apply H. now right.
Qed.

Lemma first_some_Some {X Y : Type} (f : X -> option Y) (l : list X) (b : Y) :
  first_some f l = Some b <->
  exists pre a post,
    l = pre ++ a :: post /\ (forall a', In a' pre -> f a' = None) /\ f a = Some b.
Proof.
  induction l as [|a l IH]; simpl.
  - split; [discriminate|]. intros (pre & a & post & E & _). now destruct pre.
  - destruct (f a) eqn:E.
    + split.
      * intros H. exists [], a, l. repeat split; [intros ? []|congruence].
      * intros (pre & a' & post & El & Hpre & Ha').
        destruct pre as [|p pre]; simpl in El; injection El as <- El.
        -- congruence.
        -- rewrite (Hpre a (or_introl eq_refl)) in E. discriminate.
    + rewrite IH. split.
      * intros (pre & a' & post & -> & Hpre & Ha').
        exists (a :: pre), a', post. repeat split; [|exact Ha'].
        intros x [<-|Hx]; [exact E | now apply Hpre].
      * intros (pre & a' & post & El & Hpre & Ha').
        destruct pre as [|p pre]; simpl in El; injection El as <- El.
        -- congruence.
        -- exists pre, a', post. repeat split; [exact El| |exact Ha'].
           intros x Hx. apply Hpre. now right.
Qed.

(** ** The normalizer keeps the equals signs *)

Lemma isdigit_not_eq (d : ascii) : isdigit d = true -> Ascii.eqb "=" d = false.
Proof.
  intros H. destruct (Ascii.eqb_spec "=" d) as [<-|]; [discriminate H|reflexivity].
Qed.

Lemma player_symbol_not_eq (d : ascii) :
  in_player_symbols d = true -> Ascii.eqb "=" d = false.
Proof.
  intros H. destruct (Ascii.eqb_spec "=" d) as [<-|]; [discriminate H|reflexivity].
Qed.

Lemma dropped_not_eq (d : ascii) : is_op_or_eq d = false -> Ascii.eqb "=" d = false.
Proof.
  intros H. destruct (Ascii.eqb_spec "=" d) as [<-|]; [discriminate H|reflexivity].
Qed.

Lemma char_in_cons (ch a : ascii) (s : str) :
  char_in ch (a :: s) = Ascii.eqb ch a || char_in ch s.
Proof. reflexivity. Qed.

Lemma preprocess_keeps_eq_bounded (n : nat) :
  forall s, (List.length s <= n)%nat ->
    char_in "=" (preprocess_equation_string s) = char_in "=" s.
Proof.
  induction n as [|n IH]; intros s Hn.
  - destruct s; [reflexivity | simpl in Hn; lia].
  - destruct s as [|ch tl]; [reflexivity|].
    simpl in Hn. assert (Htl : (List.length tl <= n)%nat) by lia.
    cbn [preprocess_equation_string].
    destruct (isdigit ch) eqn:Hd.
    + rewrite !char_in_cons, (isdigit_not_eq _ Hd). cbn [orb].
      clear Hn Hd. revert Htl.
      induction tl as [|d t' IHt]; intros Htl; [reflexivity|].
      destruct (isdigit d) eqn:Hd'.
      * rewrite !char_in_cons, (isdigit_not_eq _ Hd'). cbn [orb].
        apply IHt. simpl in Htl. lia.
      * destruct (in_player_symbols d).
        -- rewrite char_in_cons. change (Ascii.eqb "=" "*") with false. cbn [orb].
           apply (IH (d :: t') Htl).
        -- apply (IH (d :: t') Htl).
    + destruct (in_player_symbols ch) eqn:Hp.
      * rewrite !char_in_cons, (player_symbol_not_eq _ Hp). cbn [orb].
        destruct tl as [|d t']; [reflexivity|].
        destruct (isdigit d).
        -- rewrite char_in_cons. change (Ascii.eqb "=" "*") with false. cbn [orb].
           apply (IH (d :: t') Htl).
        -- apply (IH (d :: t') Htl).
      * destruct (is_op_or_eq ch) eqn:Ho.
        -- rewrite !char_in_cons. f_equal. apply (IH tl Htl).
        -- rewrite char_in_cons, (dropped_not_eq _ Ho). cbn [orb]. apply (IH tl Htl).
Qed.

Lemma preprocess_keeps_eq (s : str) :
  char_in "=" (preprocess_equation_string s) = char_in "=" s.
Proof. apply (preprocess_keeps_eq_bounded (List.length s)). apply le_n. Qed.

Lemma count_pos_char_in (ch : ascii) (s : str) :
  0 < count ch s -> char_in ch s = true.
Proof.
  unfold count, char_in. induction s as [|a s IH]; simpl; [lia|].
  destruct (Ascii.eqb ch a); simpl; [reflexivity|exact IH].
Qed.

(** ** The validator, stage by stage *)

Section ValidateProperties.

Context `{CAS : SymPy}.

(** [is_valid_equation] read as the stages of section 4.2: the prechecks
    and the operator test, the parse of the two sides, the semantic
    checks, the solver and the acceptance loop. *)
Lemma is_valid_equation_stages (raw : str) (variable : ascii) :
  is_valid_equation raw variable =
  if structural_prechecks raw variable
     && has_operator (preprocess_equation_string raw)
  then
    match parse_sides raw variable with
    | Some (var, lhs, rhs) =>
        if (has lhs var || has rhs var) && negb (expr_eq lhs rhs) then
          match solve lhs rhs var with
          | Some sols => first_some solution_int sols
          | None => None
          end
        else None
    | None => None
    end
  else None.
Proof.
  unfold is_valid_equation, structural_prechecks, parse_sides.
  rewrite Z.ltb_antisym.
  destruct (MIN_EQ_LEN <=? len raw); cbn [negb andb]; [|reflexivity].
  destruct (count "=" raw =? 1) eqn:Hc; cbn [negb andb]; [|reflexivity].
  destruct (char_in variable raw); cbn [negb andb]; [|reflexivity].
  destruct (match opp_var variable with
            | Some o => char_in o raw
            | None => false
            end); cbn [negb andb]; [reflexivity|].
  rewrite preprocess_keeps_eq, count_pos_char_in
    by (apply Z.eqb_eq in Hc; lia).
  cbn [negb].
  destruct (has_operator (preprocess_equation_string raw)); cbn [negb];
    [|reflexivity].
  destruct (symbols variable) as [var|]; [|reflexivity].
  destruct (split_once "=" (preprocess_equation_string raw)) as [lhs_s rhs_s].
  destruct (sympify (side lhs_s) variable var) as [lhs|]; [|reflexivity].
  destruct (sympify (side rhs_s) variable var) as [rhs|]; [|reflexivity].
  destruct (has lhs var || has rhs var); cbn [negb andb]; [|reflexivity].
  destruct (expr_eq lhs rhs); cbn [negb andb].
  - destruct (has lhs var); reflexivity.
  - destruct (solve lhs rhs var) as [[|s sols]|]; reflexivity.
Qed.

Lemma is_valid_equation_at_solver (raw : str) (variable : ascii) (sols : list Expr) :
  reaches_solver raw variable sols ->
  is_valid_equation raw variable = first_some solution_int sols.
Proof.
  intros (var & lhs & rhs & (Hpre & Hop & Hparse) & Hhas & Hne & Hsolve).
  rewrite is_valid_equation_stages, Hpre, Hop, Hparse, Hhas, Hne, Hsolve.
  reflexivity.
Qed.

(** Under SymPy's guarantees on [Float], the conversion the loop tries on
    a candidate is the acceptance rule of the specification. *)
Lemma solution_int_accepted (laws : FloatLaws) (s : Expr) :
  solution_int s = accepted s.
Proof.
  unfold solution_int, accepted.
  destruct (is_Integer s && is_finite s); [reflexivity|].
  destruct (is_Float s) eqn:HF; cbn [andb]; [|reflexivity].
  destruct (is_finite s) eqn:Hfin; [|reflexivity].
  rewrite (float_not_rational laws s HF), (float_real laws s HF Hfin).
  cbn [andb].
  destruct (int_of s) as [n|] eqn:Hint.
  - destruct (eq_int s n) eqn:He; [|reflexivity].
    destruct (float_exact laws s n HF Hint He) as [-> ->]. reflexivity.
  - destruct (float_int laws s HF Hfin Hint).
Qed.

Lemma prechecks_fail (s : str) (v : ascii) :
  structural_prechecks s v = false -> is_valid_equation s v = None.
Proof. intros H. rewrite is_valid_equation_stages, H. reflexivity. Qed.

Lemma opp_var_symbol (pid : PlayerId) :
  opp_var (symbol pid) = Some (symbol (opponent pid)).
Proof. destruct pid; reflexivity. Qed.

(** C5: [validate] returns no solution for a string shorter than
    [MIN_EQ_LEN], for one whose number of ['='] is not one, for one in
    which the variable does not occur, and for one in which the
    opponent's variable occurs. *)
Theorem validate_precheck_rejects (s : str) (v : ascii) :
  len s < MIN_EQ_LEN \/
  count "=" s <> 1 \/
  char_in v s = false \/
  (exists o, opp_var v = Some o /\ char_in o s = true) ->
  is_valid_equation s v = None.
Proof.
  intros H. apply prechecks_fail. unfold structural_prechecks.
  destruct H as [H|[H|[H|(o & Ho & H)]]].
  - apply Z.leb_gt in H. rewrite H. reflexivity.
  - apply Z.eqb_neq in H. rewrite H, andb_false_r. reflexivity.
  - rewrite H, andb_false_r. reflexivity.
  - rewrite Ho, H. apply andb_false_r.
Qed.

(** C6: for a string that reaches the semantic checks, [validate] returns
    no solution when neither parsed side contains the variable, and when
    the two parsed sides are structurally identical, with or without the
    variable in them. *)
Theorem validate_semantic_rejects (raw : str) (v : ascii) (var : Symbol)
    (lhs rhs : Expr) :
  reaches_semantic_checks raw v var lhs rhs ->
  (has lhs var = false /\ has rhs var = false ->
   is_valid_equation raw v = None) /\
  (expr_eq lhs rhs = true -> is_valid_equation raw v = None).
Proof.
  intros (Hpre & Hop & Hparse).
  rewrite is_valid_equation_stages, Hpre, Hop, Hparse. cbn [andb].
  split.
  - intros [-> ->]. reflexivity.
  - intros ->. cbn [negb]. rewrite andb_false_r. reflexivity.
Qed.

(** C7: when the solver answers with the candidates [sols], [validate]
    returns the integer of the first candidate, in the solver's order,
    that the acceptance rule takes (an exact integer, a rational with
    denominator 1, or a finite real within 1e-10 of its nearest integer,
    rounded), and no solution when the rule takes none of them. *)
Theorem validate_first_accepted (laws : FloatLaws) (raw : str) (v : ascii)
    (sols : list Expr) :
  reaches_solver raw v sols ->
  (forall n,
     is_valid_equation raw v = Some n <->
     exists pre s post,
       sols = pre ++ s :: post /\
       (forall s', In s' pre -> accepted s' = None) /\
       accepted s = Some n) /\
  (is_valid_equation raw v = None <->
   forall s, In s sols -> accepted s = None).
Proof.
  intros H. rewrite (is_valid_equation_at_solver _ _ _ H).
  rewrite (first_some_ext solution_int accepted)
    by (intros; apply solution_int_accepted; exact laws).
  split; [intros n; apply first_some_Some | apply first_some_None].
Qed.

(** C10: when the normalized form of the string contains none of ['+'],
    ['-'], ['*'], ['/'], [validate] returns no solution, whatever the
    equation it denotes. *)
Theorem validate_needs_operator (raw : str) (v : ascii) :
  has_operator (preprocess_equation_string raw) = false ->
  is_valid_equation raw v = None.
Proof.
  intros H. rewrite is_valid_equation_stages, H, andb_false_r. reflexivity.
Qed.

(** C1, as amended: a string that passes the four structural prechecks,
    whose normalized form contains an arithmetic operator and parses as
    [lhs = rhs], neither trivial nor an identity, with a unique solution
    that is the integer [n], validates to [n]. *)
Theorem validate_returns_solution (raw : str) (v : ascii) (n : Z) :
  structural_prechecks raw v = true ->
  has_operator (preprocess_equation_string raw) = true ->
  unique_integer_solution raw v n ->
  is_valid_equation raw v = Some n.
Proof.
  intros Hpre Hop (var & lhs & rhs & s & Hparse & Hhas & Hne & Hsolve & Hi & Hf & Hn).
  rewrite is_valid_equation_stages, Hpre, Hop, Hparse, Hhas, Hne, Hsolve.
  cbn [andb negb first_some]. unfold solution_int. rewrite Hi, Hf, Hn.
  reflexivity.
Qed.

End ValidateProperties.

(** ** The scan as the first valid candidate *)

Lemma len_map {X Y : Type} (f : X -> Y) (l : list X) : len (map f l) = len l.
Proof. unfold len. rewrite length_map. reflexivity. Qed.

Lemma flat_map_all_nil {X Y : Type} (g : X -> list Y) (l : list X) :
  (forall a, In a l -> g a = []) -> flat_map g l = [].
Proof.
  induction l as [|a l IH]; simpl; intros H; [reflexivity|].
  rewrite (H a (or_introl eq_refl)), IH; [reflexivity|].
  intros b Hb. apply H. now right.
Qed.

Lemma flat_map_seq_shift {Y : Type} (f : nat -> list Y) (a n : nat) :
  flat_map f (seq (S a) n) = flat_map (fun k => f (S k)) (seq a n).
Proof. rewrite <- seq_shift, flat_map_concat_map, map_map, <- flat_map_concat_map. reflexivity. Qed.

Section ScanProperties.

Context `{CAS : SymPy}.

Variable board : list (list ascii).
Variable size : Z.
Variable player_sym : ascii.

Lemma check_segment_qualifying (cells : list ((Z * Z) * ascii)) :
  check_segment (map snd cells) (map fst cells) player_sym =
  first_some (try_candidate player_sym) (qualifying cells).
Proof.
  unfold check_segment, qualifying. rewrite len_map.
  destruct (MIN_EQ_LEN <=? len cells); [|reflexivity].
  unfold validate_both, both_ways, try_candidate. cbn [first_some fst snd].
  destruct (is_valid_equation (map snd cells) player_sym); [reflexivity|].
  destruct (is_valid_equation (rev (map snd cells)) player_sym); reflexivity.
Qed.

Lemma extend_line_candidates (r0 c0 dr dc : Z) (idx : list Z) :
  forall acc,
    extend_line board size player_sym r0 c0 dr dc idx (map snd acc) (map fst acc) =
    first_some (try_candidate player_sym)
      (candidates_after acc (run_cells board size r0 c0 dr dc idx)).
Proof.
  unfold candidates_after.
  induction idx as [|i rest IH]; intros acc; cbn [extend_line run_cells].
  - reflexivity.
  - destruct (in_bounds size (r0 + i * dr) (c0 + i * dc)); cbn [negb].
    + destruct (board_get board (r0 + i * dr) (c0 + i * dc)) as [ch|];
        [|reflexivity].
      destruct (Ascii.eqb ch EMPTY_CELL).
      * cbn [fst snd List.length seq flat_map app]. rewrite app_nil_r.
        apply check_segment_qualifying.
      * destruct (run_cells board size r0 c0 dr dc rest) as [cells bd] eqn:Hrun.
        set (x := ((r0 + i * dr, c0 + i * dc), ch)).
        specialize (IH (acc ++ [x])). rewrite !map_app in IH. cbn [map] in IH.
        change (snd x) with ch in IH.
        change (fst x) with (r0 + i * dr, c0 + i * dc) in IH.
        cbn [fst snd] in IH |- *. cbn [List.length seq flat_map].
        rewrite <- !app_assoc, first_some_app.
        cbn [firstn]. rewrite <- check_segment_qualifying.
        rewrite !map_app. cbn [map]. change (snd x) with ch.
        change (fst x) with (r0 + i * dr, c0 + i * dc).
        destruct (check_segment (map snd acc ++ [ch])
                    (map fst acc ++ [(r0 + i * dr, c0 + i * dc)]) player_sym);
          [reflexivity|].
        rewrite IH, (flat_map_seq_shift _ 1). f_equal. f_equal.
        -- apply flat_map_ext. intros k. cbn [firstn].
           rewrite <- app_assoc. reflexivity.
        -- rewrite <- app_assoc. reflexivity.
    + cbn [fst snd List.length seq flat_map app]. rewrite app_nil_r.
      apply check_segment_qualifying.
Qed.

Lemma extend_line_ray (r0 c0 dr dc : Z) :
  extend_line board size player_sym r0 c0 dr dc (range size) [] [] =
  first_some (try_candidate player_sym)
    (ray_candidates (run_cells board size r0 c0 dr dc (range size))).
Proof.
  change (@nil ascii) with (map snd (@nil ((Z * Z) * ascii))).
  change (@nil (Z * Z)) with (map fst (@nil ((Z * Z) * ascii))).
  rewrite (extend_line_candidates r0 c0 dr dc (range size) []).
  unfold candidates_after, ray_candidates.
  destruct (run_cells board size r0 c0 dr dc (range size)); reflexivity.
Qed.

End ScanProperties.

Section FindWin.

Context `{CAS : SymPy}.

Lemma run_cells_no_board (size r0 c0 dr dc : Z) (idx : list Z) :
  fst (run_cells [] size r0 c0 dr dc idx) = [].
Proof.
  destruct idx as [|i rest]; cbn [run_cells]; [reflexivity|].
  destruct (in_bounds size (r0 + i * dr) (c0 + i * dc)); cbn [negb];
    [|reflexivity].
  unfold board_get. destruct (Z.to_nat (r0 + i * dr)); reflexivity.
Qed.

Lemma candidates_no_board (size : Z) : candidates [] size = [].
Proof.
  unfold candidates.
  apply flat_map_all_nil; intros r0 _.
  apply flat_map_all_nil; intros c0 _.
  apply flat_map_all_nil; intros d _.
  pose proof (run_cells_no_board size r0 c0 (fst d) (snd d) (range size)) as H.
  destruct (run_cells [] size r0 c0 (fst d) (snd d) (range size)) as [cells bd].
  cbn [fst] in H. subst cells. destruct bd; reflexivity.
Qed.

(** The scan returns the first candidate, in the order of [candidates],
    that validates. *)
Lemma check_win_board_candidates (board : list (list ascii)) (size : Z)
    (player_sym : ascii) :
  check_win_board board size player_sym =
  first_some (try_candidate player_sym) (candidates board size).
Proof.
  destruct board as [|row rows].
  - rewrite candidates_no_board. reflexivity.
  - unfold check_win_board, candidates.
    rewrite first_some_flat_map. apply first_some_ext; intros r0 _.
    rewrite first_some_flat_map. apply first_some_ext; intros c0 _.
    rewrite first_some_flat_map. apply first_some_ext; intros [dr dc] _.
    apply extend_line_ray.
Qed.

Lemma try_candidate_Some (player_sym : ascii) (c : candidate) (w : WinResult) :
  try_candidate player_sym c = Some w ->
  c = (coordinates w, equation_text w) /\
  is_valid_equation (equation_text w) player_sym = Some (solution w).
Proof.
  unfold try_candidate. destruct c as [coords text]. cbn [fst snd].
  destruct (is_valid_equation text player_sym) as [sol|] eqn:E; [|discriminate].
  intros [= <-]. cbn. split; [reflexivity | exact E].
Qed.

(** A reported win is a candidate of the board that validates. *)
Lemma check_win_board_Some (board : list (list ascii)) (size : Z)
    (player_sym : ascii) (w : WinResult) :
  check_win_board board size player_sym = Some w ->
  In (coordinates w, equation_text w) (candidates board size) /\
  is_valid_equation (equation_text w) player_sym = Some (solution w).
Proof.
  rewrite check_win_board_candidates.
  intros (pre & c & post & E & _ & Hc)%first_some_Some.
  apply try_candidate_Some in Hc as [-> Hv].
  split; [|exact Hv]. rewrite E. apply in_elt.
Qed.

(** C2: [find_win] returns the first candidate that validates, the
    candidates being taken origin by origin in row-major order, for each
    origin direction by direction in the fixed order of [DIRECTIONS], on
    each walk run by run from the first of length [MIN_EQ_LEN], every
    extension after it and the run before the terminating cell, the
    forward string before the reversed one; it reports no win when no
    candidate of the board validates. *)
Theorem find_win_first_candidate (board : list (list ascii)) (size : Z)
    (v : ascii) :
  DIRECTIONS =
    [(0, 1); (1, 0); (1, 1); (1, -1); (0, -1); (-1, 0); (-1, -1); (-1, 1)] /\
  check_win_board board size v =
    first_some (try_candidate v) (candidates board size) /\
  (forall w,
     check_win_board board size v = Some w <->
     exists pre c post,
       candidates board size = pre ++ c :: post /\
       (forall c', In c' pre -> is_valid_equation (snd c') v = None) /\
       try_candidate v c = Some w) /\
  (check_win_board board size v = None <->
   forall c, In c (candidates board size) -> is_valid_equation (snd c) v = None).
Proof.
  assert (Hnone : forall c : candidate,
            try_candidate v c = None <-> is_valid_equation (snd c) v = None).
  { intros c. unfold try_candidate.
    destruct (is_valid_equation (snd c) v); split; congruence. }
  split; [reflexivity|]. split; [apply check_win_board_candidates|].
  rewrite check_win_board_candidates. split.
  - intros w. rewrite first_some_Some. split.
    + intros (pre & c & post & E & Hpre & Hc). exists pre, c, post.
      repeat split; [exact E| |exact Hc]. intros c' Hc'. now apply Hnone, Hpre.
    + intros (pre & c & post & E & Hpre & Hc). exists pre, c, post.
      repeat split; [exact E| |exact Hc]. intros c' Hc'. now apply Hnone, Hpre.
  - rewrite first_some_None. split; intros H c Hc; now apply Hnone, H.
Qed.

(** C8: when [find_win] reports a win, [validate] on the returned
    equation text, for the same variable, returns the returned solution. *)
Theorem find_win_sound (board : list (list ascii)) (size : Z) (v : ascii)
    (w : WinResult) :
  check_win_board board size v = Some w ->
  is_valid_equation (equation_text w) v = Some (solution w).
Proof. intros H. apply (check_win_board_Some _ _ _ _ H). Qed.

End FindWin.

(** ** Boards that agree on a line *)

Lemma in_both_ways_coords (cells : list ((Z * Z) * ascii)) (c : candidate) :
  In c (both_ways cells) -> fst c = map fst cells.
Proof. intros [<-|[<-|[]]]; reflexivity. Qed.

Lemma in_ray_candidates (cells : list ((Z * Z) * ascii)) (bd : bool) (c : candidate) :
  In c (ray_candidates (cells, bd)) <->
  exists k, (1 <= k <= List.length cells)%nat /\ MIN_EQ_LEN <= Z.of_nat k /\
            In c (both_ways (firstn k cells)).
Proof.
  unfold ray_candidates. rewrite in_app_iff, in_flat_map. split.
  - intros [(k & Hk & Hc)|Hc].
    + apply in_seq in Hk. unfold qualifying in Hc.
      destruct (MIN_EQ_LEN <=? len (firstn k cells)) eqn:Hl; [|destruct Hc].
      apply Z.leb_le in Hl. unfold len in Hl. rewrite length_firstn in Hl.
      exists k. repeat split; [lia|lia|lia|exact Hc].
    + destruct bd; [|destruct Hc]. unfold qualifying in Hc.
      destruct (MIN_EQ_LEN <=? len cells) eqn:Hl; [|destruct Hc].
      apply Z.leb_le in Hl. unfold len, MIN_EQ_LEN in Hl.
      exists (List.length cells). rewrite firstn_all.
      unfold MIN_EQ_LEN. repeat split; [lia|lia|lia|exact Hc].
  - intros (k & Hk & Hmin & Hc). left. exists k. split; [apply in_seq; lia|].
    unfold qualifying.
    replace (len (firstn k cells)) with (Z.of_nat k)
      by (unfold len; rewrite length_firstn; lia).
    apply Z.leb_le in Hmin. rewrite Hmin. exact Hc.
Qed.

Lemma run_cells_agree (b1 b2 : list (list ascii)) (size r0 c0 dr dc : Z)
    (idx : list Z) :
  forall k,
    (k <= List.length (fst (run_cells b1 size r0 c0 dr dc idx)))%nat ->
    agree_on b1 b2 (map fst (firstn k (fst (run_cells b1 size r0 c0 dr dc idx)))) ->
    (k <= List.length (fst (run_cells b2 size r0 c0 dr dc idx)))%nat /\
    firstn k (fst (run_cells b2 size r0 c0 dr dc idx)) =
    firstn k (fst (run_cells b1 size r0 c0 dr dc idx)).
Proof.
  induction idx as [|i rest IH]; intros k Hk Hag.
  - cbn in Hk. assert (k = 0%nat) as -> by lia. split; [apply Nat.le_0_l|reflexivity].
  - destruct k as [|k]; [split; [apply Nat.le_0_l|reflexivity]|].
    cbn [run_cells] in *.
    destruct (in_bounds size (r0 + i * dr) (c0 + i * dc)); cbn [negb] in *;
      [|cbn in Hk; lia].
    destruct (board_get b1 (r0 + i * dr) (c0 + i * dc)) as [ch|] eqn:Hg;
      [|cbn in Hk; lia].
    destruct (Ascii.eqb ch EMPTY_CELL) eqn:He; [cbn in Hk; lia|].
    destruct (run_cells b1 size r0 c0 dr dc rest) as [cells1 bd1].
    cbn [fst List.length firstn map] in Hk, Hag.
    assert (Hg2 : board_get b2 (r0 + i * dr) (c0 + i * dc) = Some ch).
    { rewrite <- Hg. apply (Hag (r0 + i * dr, c0 + i * dc)). now left. }
    rewrite Hg2, He.
    destruct (IH k) as [Hlen Hfirst]; [cbn [fst]; lia| |].
    { intros rc Hrc. apply Hag. now right. }
    destruct (run_cells b2 size r0 c0 dr dc rest) as [cells2 bd2].
    cbn [fst List.length firstn] in *. split; [lia|]. now f_equal.
Qed.

Lemma candidate_transfers (b1 b2 : list (list ascii)) (size : Z) (c : candidate) :
  In c (candidates b1 size) -> agree_on b1 b2 (fst c) -> In c (candidates b2 size).
Proof.
  unfold candidates. intros Hin Hag.
  apply in_flat_map in Hin as (r0 & Hr0 & Hin).
  apply in_flat_map in Hin as (c0 & Hc0 & Hin).
  apply in_flat_map in Hin as (d & Hd & Hin).
  apply in_flat_map. exists r0. split; [exact Hr0|].
  apply in_flat_map. exists c0. split; [exact Hc0|].
  apply in_flat_map. exists d. split; [exact Hd|].
  destruct (run_cells b1 size r0 c0 (fst d) (snd d) (range size))
    as [cells1 bd1] eqn:H1.
  destruct (run_cells b2 size r0 c0 (fst d) (snd d) (range size))
    as [cells2 bd2] eqn:H2.
  apply in_ray_candidates in Hin as (k & Hk & Hmin & Hc).
  apply in_ray_candidates. exists k.
  pose proof (in_both_ways_coords _ _ Hc) as Hcoords.
  destruct (run_cells_agree b1 b2 size r0 c0 (fst d) (snd d) (range size) k)
    as [Hlen Hfirst].
  - rewrite H1. cbn [fst]. lia.
  - rewrite H1. cbn [fst]. rewrite <- Hcoords. exact Hag.
  - rewrite H1, H2 in *. cbn [fst] in *. rewrite Hfirst.
    repeat split; [lia|lia|exact Hmin|exact Hc].
Qed.

Section Agreement.

Context `{CAS : SymPy}.

(** C4, as amended: when two boards agree on every cell of the winning
    line that [find_win] returns on the first, the scan of the second
    board examines the same candidate and reports a win; it returns the
    identical [WinResult] whenever no candidate examined before that one
    on the second board validates. *)
Theorem find_win_agree (b1 b2 : list (list ascii)) (size : Z) (v : ascii)
    (w : WinResult) :
  check_win_board b1 size v = Some w ->
  agree_on b1 b2 (coordinates w) ->
  In (coordinates w, equation_text w) (candidates b2 size) /\
  (exists w', check_win_board b2 size v = Some w') /\
  (forall pre post,
     candidates b2 size = pre ++ (coordinates w, equation_text w) :: post ->
     (forall c, In c pre -> is_valid_equation (snd c) v = None) ->
     check_win_board b2 size v = Some w).
Proof.
  intros Hwin Hag.
  destruct (check_win_board_Some _ _ _ _ Hwin) as [Hin Hvalid].
  assert (Hin2 : In (coordinates w, equation_text w) (candidates b2 size))
    by (apply (candidate_transfers b1); assumption).
  assert (Htry : try_candidate v (coordinates w, equation_text w) = Some w).
  { unfold try_candidate. cbn [fst snd]. rewrite Hvalid. now destruct w. }
  split; [exact Hin2|]. split.
  - destruct (check_win_board b2 size v) as [w'|] eqn:E; [now exists w'|].
    rewrite check_win_board_candidates in E.
    rewrite (proj1 (first_some_None _ _) E _ Hin2) in Htry. discriminate.
  - intros pre post Hsplit Hpre.
    rewrite check_win_board_candidates. apply first_some_Some.
    exists pre, (coordinates w, equation_text w), post.
    repeat split; [exact Hsplit| |exact Htry].
    intros c Hc. unfold try_candidate. now rewrite (Hpre c Hc).
Qed.

End Agreement.

(** ** The placement rule *)

Lemma range_from_step (a b : Z) : a < b -> range_from a b = a :: range_from (a + 1) b.
Proof.
  intros H. unfold range_from.
  replace (Z.to_nat (b - a)) with (S (Z.to_nat (b - (a + 1)))) by lia.
  cbn [seq map]. rewrite <- seq_shift, map_map. f_equal; [lia|].
  apply map_ext. intros k. lia.
Qed.

Lemma range_from_empty (a b : Z) : b <= a -> range_from a b = [].
Proof.
  intros H. unfold range_from. replace (Z.to_nat (b - a)) with 0%nat by lia.
  reflexivity.
Qed.

Section Placement.

Variable board : list (list ascii).
Variable board_size : Z.
Variable opp_sym : ascii.
Variables r c dr dc : Z.

Lemma ray_hits_opponent_step (i : Z) (rest : list Z) :
  ray_hits_opponent board board_size opp_sym r c dr dc (i :: rest) =
  match cell_at board board_size (r + i * dr) (c + i * dc) with
  | Some ch =>
      if Ascii.eqb ch opp_sym then true
      else if Ascii.eqb ch EMPTY_CELL
           then ray_hits_opponent board board_size opp_sym r c dr dc rest
           else false
  | None => false
  end.
Proof.
  cbn [ray_hits_opponent]. unfold cell_at.
  destruct (in_bounds board_size (r + i * dr) (c + i * dc)); cbn [negb];
    [|reflexivity].
  destruct (board_get board (r + i * dr) (c + i * dc)) as [ch|]; [|reflexivity].
  destruct (Ascii.eqb ch opp_sym); [reflexivity|].
  destruct (Ascii.eqb ch EMPTY_CELL); reflexivity.
Qed.

(** The loop along a ray finds the opponent's symbol exactly when that
    symbol is in the first cell after a stretch of empty cells. *)
Lemma ray_hits_opponent_iff (n : nat) :
  forall a b, Z.to_nat (b - a) = n ->
    ray_hits_opponent board board_size opp_sym r c dr dc (range_from a b) = true <->
    exists k, a <= k < b /\
      (forall j, a <= j < k ->
         cell_at board board_size (r + j * dr) (c + j * dc) = Some EMPTY_CELL) /\
      cell_at board board_size (r + k * dr) (c + k * dc) = Some opp_sym.
Proof.
  induction n as [|n IH]; intros a b Hn.
  - rewrite range_from_empty by lia. split; [discriminate|].
    intros (k & Hk & _). lia.
  - rewrite range_from_step by lia. rewrite ray_hits_opponent_step.
    specialize (IH (a + 1) b ltac:(lia)).
    destruct (cell_at board board_size (r + a * dr) (c + a * dc)) as [ch|] eqn:Hcell.
    + destruct (Ascii.eqb_spec ch opp_sym) as [->|Hopp].
      * split; [intros _|reflexivity].
        exists a. repeat split; [lia|lia| |exact Hcell]. intros j Hj. lia.
      * destruct (Ascii.eqb_spec ch EMPTY_CELL) as [->|Hemp].
        -- rewrite IH. split.
           ++ intros (k & Hk & Hbefore & Hat). exists k.
              repeat split; [lia|lia| |exact Hat].
              intros j Hj. destruct (Z.eq_dec j a) as [->|Hne];
                [exact Hcell | apply Hbefore; lia].
           ++ intros (k & Hk & Hbefore & Hat).
              assert (k <> a) by (intros ->; congruence).
              exists k. repeat split; [lia|lia| |exact Hat].
              intros j Hj. apply Hbefore. lia.
        -- split; [discriminate|]. intros (k & Hk & Hbefore & Hat).
           destruct (Z.eq_dec k a) as [->|Hne]; [congruence|].
           rewrite Hbefore in Hcell by lia. congruence.
    + split; [discriminate|]. intros (k & Hk & Hbefore & Hat).
      destruct (Z.eq_dec k a) as [->|Hne]; [congruence|].
      rewrite Hbefore in Hcell by lia. discriminate.
Qed.

End Placement.

Lemma cell_at_in_bounds (board : list (list ascii)) (size r c : Z) (ch : ascii) :
  cell_at board size r c = Some ch ->
  in_bounds size r c = true /\ board_get board r c = Some ch.
Proof.
  unfold cell_at. destruct (in_bounds size r c); [now split|discriminate].
Qed.

Lemma in_bounds_iff (size r c : Z) :
  in_bounds size r c = true <-> 0 <= r < size /\ 0 <= c < size.
Proof. unfold in_bounds. rewrite !andb_true_iff, !Z.leb_le, !Z.ltb_lt. lia. Qed.

(** C3: for a target cell of the board, [can_place_variable] returns
    false exactly when, in one of the eight directions, the first
    non-empty cell on the ray from the target holds the opponent's
    variable; what lies behind that first cell, and a ray that leaves the
    board over empty cells, do not count, so on a board with no symbol
    the placement is allowed. *)
Theorem placement_blocked_iff (board : list (list ascii)) (size : Z)
    (mover : PlayerId) (row col : Z) :
  in_bounds size row col = true ->
  (is_variable_placement_valid board size (Some mover) row col = false <->
   exists dr dc,
     is_direction dr dc /\
     first_nonempty board size row col dr dc (symbol (opponent mover))) /\
  (all_empty board ->
   is_variable_placement_valid board size (Some mover) row col = true).
Proof.
  intros Hin. apply in_bounds_iff in Hin.
  assert (Hsym : symbol (opponent mover) <> EMPTY_CELL)
    by (destruct mover; discriminate).
  assert (Hto : is_variable_placement_valid board size (Some mover) row col = false ->
                exists dr dc, is_direction dr dc /\
                  first_nonempty board size row col dr dc (symbol (opponent mover))).
  { unfold is_variable_placement_valid. fold (opponent mover).
    rewrite negb_false_iff. change (range_from (-1) 2) with [-1; 0; 1].
    intros (dr & Hdr & (dc & Hdc & H)%existsb_exists)%existsb_exists.
    destruct ((dr =? 0) && (dc =? 0)) eqn:Hz; [discriminate|].
    apply (ray_hits_opponent_iff _ _ _ _ _ _ _ _ 1 size eq_refl) in H
      as (k & Hk & Hbefore & Hat).
    exists dr, dc. split.
    - apply andb_false_iff in Hz. rewrite !Z.eqb_neq in Hz.
      cbn [In] in Hdr, Hdc. unfold is_direction. lia.
    - exists k. repeat split; [lia|exact Hbefore|exact Hat|exact Hsym]. }
  split; [split; [exact Hto|]|].
  - intros (dr & dc & (Hdr & Hdc & Hnz) & k & Hk & Hbefore & Hat & _).
    unfold is_variable_placement_valid. fold (opponent mover).
    rewrite negb_false_iff. change (range_from (-1) 2) with [-1; 0; 1].
    apply existsb_exists. exists dr. split; [cbn [In]; lia|].
    apply existsb_exists. exists dc. split; [cbn [In]; lia|].
    replace ((dr =? 0) && (dc =? 0)) with false
      by (symmetry; apply andb_false_iff; rewrite !Z.eqb_neq; lia).
    apply (ray_hits_opponent_iff _ _ _ _ _ _ _ _ 1 size eq_refl).
    exists k. repeat split; [lia| |exact Hbefore|exact Hat].
    apply cell_at_in_bounds in Hat as [Hb _]. apply in_bounds_iff in Hb. nia.
  - intros Hempty.
    destruct (is_variable_placement_valid board size (Some mover) row col) eqn:E;
      [reflexivity|].
    destruct (Hto eq_refl) as (dr & dc & _ & k & _ & _ & Hat & _).
    apply cell_at_in_bounds in Hat as [_ Hat]. apply Hempty in Hat.
    contradiction.
Qed.

(** ** The examples of the specification, on the exact solver *)

Example preprocess_number_then_variable :
  preprocess_equation_string (chars "2x=10") = chars "2*x=10".
Proof. reflexivity. Qed.

Example preprocess_drops_and_inserts :
  preprocess_equation_string (chars "12x3 + y4=x") = chars "12*x*3+y*4=x".
Proof. reflexivity. Qed.

Example scenario_row_2 :
  Exact.find_win board_one_line 6 "x" =
  Some (mkWin [(2, 0); (2, 1); (2, 2); (2, 3); (2, 4)] (chars "x+2=5") 3).
Proof. vm_compute. reflexivity. Qed.

Example placement_behind_a_digit :
  is_variable_placement_valid board_blocked 4 (Some PlayerA) 0 0 = true.
Proof. reflexivity. Qed.

(** C9: [validate("x+1=3", 'x')] is 2; the run ["2x=10"] is normalized to
    ["2*x=10"] and both validate to 5; ["5=5"], ["x=x"] and ["x/0=1"]
    give no solution, the first two for every solver. *)
Theorem validate_examples :
  Exact.validate (chars "x+1=3") "x" = Some 2 /\
  preprocess_equation_string (chars "2x=10") = chars "2*x=10" /\
  Exact.validate (chars "2x=10") "x" = Some 5 /\
  Exact.validate (chars "2*x=10") "x" = Some 5 /\
  Exact.validate (chars "x/0=1") "x" = None /\
  (forall CAS : SymPy, @is_valid_equation CAS (chars "5=5") "x" = None) /\
  (forall CAS : SymPy, @is_valid_equation CAS (chars "x=x") "x" = None).
Proof.
  repeat split; try (vm_compute; reflexivity);
    intros CAS; apply prechecks_fail; reflexivity.
Qed.

(** C1 fails on ["x=200"]: the string passes the four prechecks and its
    normalized form parses as [x = 200], with the unique integer solution
    200, yet [validate] returns no solution. *)
Lemma validate_rejects_x_eq_200 :
  structural_prechecks (chars "x=200") "x" = true /\
  @unique_integer_solution Exact.cas (chars "x=200") "x" 200 /\
  Exact.validate (chars "x=200") "x" = None.
Proof.
  split; [reflexivity|]. split; [|reflexivity].
  exists "x"%char, Exact.Var, (Exact.Num 200), (Exact.Num 200).
  repeat split; reflexivity.
Qed.

(** C4 fails on two 6 x 6 boards that agree on the line [x+2=5] of row 2,
    the winning line of the first: the second also holds [x+1=3] in row
    0, which the scan reaches first. *)
Lemma find_win_differs_off_the_line :
  square board_one_line 6 /\ square board_two_lines 6 /\
  Exact.find_win board_one_line 6 "x" =
    Some (mkWin [(2, 0); (2, 1); (2, 2); (2, 3); (2, 4)] (chars "x+2=5") 3) /\
  agree_on board_one_line board_two_lines [(2, 0); (2, 1); (2, 2); (2, 3); (2, 4)] /\
  Exact.find_win board_two_lines 6 "x" =
    Some (mkWin [(0, 0); (0, 1); (0, 2); (0, 3); (0, 4)] (chars "x+1=3") 2).
Proof.
  split; [split; [reflexivity | repeat constructor]|].
  split; [split; [reflexivity | repeat constructor]|].
  split; [vm_compute; reflexivity|]. split; [|vm_compute; reflexivity].
  intros rc [<-|[<-|[<-|[<-|[<-|[]]]]]]; reflexivity.
Qed.

(** ** The theorems at concrete inputs *)

Lemma validate_returns_solution_witness :
  structural_prechecks (chars "x+1=3") "x" = true /\
  has_operator (preprocess_equation_string (chars "x+1=3")) = true /\
  @unique_integer_solution Exact.cas (chars "x+1=3") "x" 2 /\
  Exact.validate (chars "x+1=3") "x" = Some 2.
Proof.
  assert (H : @unique_integer_solution Exact.cas (chars "x+1=3") "x" 2).
  { exists "x"%char, (Exact.Bin Exact.Add Exact.Var (Exact.Num 1)),
      (Exact.Num 3), (Exact.Num 2).
    repeat split; reflexivity. }
  split; [reflexivity|]. split; [reflexivity|]. split; [exact H|].
  apply (@validate_returns_solution Exact.cas);
    [reflexivity | reflexivity | exact H].
Defined.

Lemma placement_blocked_iff_witness :
  in_bounds 4 0 3 = true /\
  (is_variable_placement_valid board_blocked 4 (Some PlayerA) 0 3 = false <->
   exists dr dc,
     is_direction dr dc /\
     first_nonempty board_blocked 4 0 3 dr dc "y").
Proof.
  split; [reflexivity|].
  apply (placement_blocked_iff board_blocked 4 PlayerA 0 3). reflexivity.
Defined.

Lemma find_win_agree_witness :
  Exact.find_win board_one_line 6 "x" =
    Some (mkWin [(2, 0); (2, 1); (2, 2); (2, 3); (2, 4)] (chars "x+2=5") 3) /\
  agree_on board_one_line board_two_lines [(2, 0); (2, 1); (2, 2); (2, 3); (2, 4)] /\
  exists w', Exact.find_win board_two_lines 6 "x" = Some w'.
Proof.
  assert (Hwin : Exact.find_win board_one_line 6 "x" =
            Some (mkWin [(2, 0); (2, 1); (2, 2); (2, 3); (2, 4)] (chars "x+2=5") 3))
    by (vm_compute; reflexivity).
  assert (Hag : agree_on board_one_line board_two_lines
                  [(2, 0); (2, 1); (2, 2); (2, 3); (2, 4)])
    by (intros rc [<-|[<-|[<-|[<-|[<-|[]]]]]]; reflexivity).
  split; [exact Hwin|]. split; [exact Hag|].
  apply (@find_win_agree Exact.cas board_one_line board_two_lines 6 "x" _ Hwin Hag).
Defined.

Lemma validate_precheck_rejects_witness :
  (len (chars "x+y=3") < MIN_EQ_LEN \/
   count "=" (chars "x+y=3") <> 1 \/
   char_in "x" (chars "x+y=3") = false \/
   (exists o, opp_var "x" = Some o /\ char_in o (chars "x+y=3") = true)) /\
  Exact.validate (chars "x+y=3") "x" = None.
Proof.
  assert (H : len (chars "x+y=3") < MIN_EQ_LEN \/
              count "=" (chars "x+y=3") <> 1 \/
              char_in "x" (chars "x+y=3") = false \/
              (exists o, opp_var "x" = Some o /\ char_in o (chars "x+y=3") = true)).
  { right. right. right. exists "y"%char. split; reflexivity. }
  split; [exact H|]. apply (@validate_precheck_rejects Exact.cas _ _ H).
Defined.

Lemma validate_semantic_rejects_witness :
  @reaches_semantic_checks Exact.cas (chars "x+1=x+1") "x" "x"
    (Exact.Bin Exact.Add Exact.Var (Exact.Num 1))
    (Exact.Bin Exact.Add Exact.Var (Exact.Num 1)) /\
  Exact.validate (chars "x+1=x+1") "x" = None /\
  @reaches_semantic_checks Exact.cas (chars "z1+1=3") "z" "z"
    (Exact.Bin Exact.Add (Exact.Num 1) (Exact.Num 1)) (Exact.Num 3) /\
  Exact.validate (chars "z1+1=3") "z" = None.
Proof.
  assert (H1 : @reaches_semantic_checks Exact.cas (chars "x+1=x+1") "x" "x"
                 (Exact.Bin Exact.Add Exact.Var (Exact.Num 1))
                 (Exact.Bin Exact.Add Exact.Var (Exact.Num 1)))
    by (repeat split; reflexivity).
  assert (H2 : @reaches_semantic_checks Exact.cas (chars "z1+1=3") "z" "z"
                 (Exact.Bin Exact.Add (Exact.Num 1) (Exact.Num 1)) (Exact.Num 3))
    by (repeat split; reflexivity).
  split; [exact H1|]. split.
  - apply (proj2 (@validate_semantic_rejects Exact.cas _ _ _ _ _ H1)). reflexivity.
  - split; [exact H2|].
    apply (proj1 (@validate_semantic_rejects Exact.cas _ _ _ _ _ H2)).
    split; reflexivity.
Defined.

Lemma validate_first_accepted_witness :
  @FloatLaws Exact.cas /\
  @reaches_solver Exact.cas (chars "2x=10") "x" [Exact.Num 5] /\
  (forall n,
     Exact.validate (chars "2x=10") "x" = Some n <->
     exists pre s post,
       [Exact.Num 5] = pre ++ s :: post /\
       (forall s', In s' pre -> @accepted Exact.cas s' = None) /\
       @accepted Exact.cas s = Some n) /\
  (Exact.validate (chars "2x=10") "x" = None <->
   forall s, In s [Exact.Num 5] -> @accepted Exact.cas s = None).
Proof.
  assert (laws : @FloatLaws Exact.cas) by (constructor; intros; discriminate).
  assert (H : @reaches_solver Exact.cas (chars "2x=10") "x" [Exact.Num 5]).
  { exists "x"%char, (Exact.Bin Exact.Mul (Exact.Num 2) Exact.Var), (Exact.Num 10).
    repeat split; reflexivity. }
  split; [exact laws|]. split; [exact H|].
  apply (@validate_first_accepted Exact.cas laws _ _ _ H).
Defined.

Lemma find_win_sound_witness :
  Exact.find_win board_one_line 6 "x" =
    Some (mkWin [(2, 0); (2, 1); (2, 2); (2, 3); (2, 4)] (chars "x+2=5") 3) /\
  Exact.validate (chars "x+2=5") "x" = Some 3.
Proof.
  assert (Hwin : Exact.find_win board_one_line 6 "x" =
            Some (mkWin [(2, 0); (2, 1); (2, 2); (2, 3); (2, 4)] (chars "x+2=5") 3))
    by (vm_compute; reflexivity).
  split; [exact Hwin|].
  apply (@find_win_sound Exact.cas board_one_line 6 "x" _ Hwin).
Defined.

Lemma validate_needs_operator_witness :
  has_operator (preprocess_equation_string (chars "x=200")) = false /\
  Exact.validate (chars "x=200") "x" = None.
Proof.
  split; [reflexivity|].
  apply (@validate_needs_operator Exact.cas). reflexivity.
Defined.

(** * Further properties of the code *)

(** ** The normalizer in one pass *)

Lemma player_symbol_not_digit (d : ascii) :
  in_player_symbols d = true -> isdigit d = false.
Proof.
  unfold in_player_symbols, PLAYERS. cbn [existsb symbol].
  destruct (Ascii.eqb_spec d "x") as [->|]; [reflexivity|].
  destruct (Ascii.eqb_spec d "y") as [->|]; [reflexivity|discriminate].
Qed.

Lemma digit_not_player_symbol (d : ascii) :
  isdigit d = true -> in_player_symbols d = false.
Proof.
  intros H. destruct (in_player_symbols d) eqn:E; [|reflexivity].
  rewrite (player_symbol_not_digit d E) in H. discriminate.
Qed.

Lemma op_not_digit_nor_symbol (d : ascii) :
  is_op_or_eq d = true -> isdigit d = false /\ in_player_symbols d = false.
Proof.
  unfold is_op_or_eq, char_in. cbn [chars list_ascii_of_string existsb].
  destruct (Ascii.eqb_spec d "+") as [->|]; [now split|].
  destruct (Ascii.eqb_spec d "-") as [->|]; [now split|].
  destruct (Ascii.eqb_spec d "*") as [->|]; [now split|].
  destruct (Ascii.eqb_spec d "/") as [->|]; [now split|].
  destruct (Ascii.eqb_spec d "=") as [->|]; [now split|discriminate].
Qed.

Lemma one_pass_cons (a : ascii) (tl : str) :
  one_pass (a :: tl) =
  (if kept a then [a] else [])
  ++ match tl with
     | b :: _ => if implicit_product a b then ["*"] else []
     | [] => []
     end
  ++ one_pass tl.
Proof. reflexivity. Qed.

Lemma preprocess_one_pass_bounded (n : nat) :
  forall s, (List.length s <= n)%nat ->
    preprocess_equation_string s = one_pass s.
Proof.
  induction n as [|n IH]; intros s Hn.
  - destruct s; [reflexivity | simpl in Hn; lia].
  - destruct s as [|ch tl]; [reflexivity|].
    simpl in Hn. assert (Htl : (List.length tl <= n)%nat) by lia.
    rewrite one_pass_cons. cbn [preprocess_equation_string]. unfold kept.
    destruct (isdigit ch) eqn:Hd.
    + cbn [orb app]. f_equal. clear Hn. revert ch Hd Htl.
      induction tl as [|d t' IHt]; intros ch Hd Htl; [reflexivity|].
      unfold implicit_product. rewrite Hd, (digit_not_player_symbol _ Hd).
      cbn [andb orb].
      destruct (isdigit d) eqn:Hd'.
      * rewrite (digit_not_player_symbol _ Hd'). cbn [app].
        rewrite one_pass_cons. unfold kept. rewrite Hd'. cbn [orb app].
        f_equal. apply IHt; [exact Hd' | simpl in Htl; lia].
      * destruct (in_player_symbols d); cbn [app];
          rewrite (IH (d :: t') Htl); reflexivity.
    + destruct (in_player_symbols ch) eqn:Hp.
      * cbn [orb app]. f_equal. unfold implicit_product. rewrite Hd, Hp.
        cbn [andb orb].
        destruct tl as [|d t']; [reflexivity|].
        destruct (isdigit d); cbn [app]; rewrite (IH (d :: t') Htl); reflexivity.
      * assert (Himp : match tl with
                       | b :: _ => if implicit_product ch b then ["*"] else []
                       | [] => []
                       end = @nil ascii).
        { destruct tl as [|b tl']; [reflexivity|].
          unfold implicit_product. rewrite Hd, Hp. reflexivity. }
        rewrite Himp. cbn [orb app].
        destruct (is_op_or_eq ch); cbn [app]; rewrite (IH tl Htl); reflexivity.
Qed.

Lemma preprocess_one_pass (s : str) : preprocess_equation_string s = one_pass s.
Proof. apply (preprocess_one_pass_bounded (List.length s)). apply le_n. Qed.

Lemma implicit_product_kept (a b : ascii) :
  implicit_product a b = true -> kept a = true /\ kept b = true.
Proof.
  unfold implicit_product, kept.
  destruct (isdigit a), (in_player_symbols a), (isdigit b), (in_player_symbols b);
    cbn; intros H; try discriminate; now split.
Qed.

Lemma one_pass_kept (s : str) : Forall (fun ch => kept ch = true) (one_pass s).
Proof.
  induction s as [|a tl IH]; [constructor|].
  rewrite one_pass_cons. apply Forall_app. split.
  - destruct (kept a) eqn:E; repeat constructor. exact E.
  - apply Forall_app. split; [|exact IH].
    destruct tl as [|b tl']; [constructor|].
    destruct (implicit_product a b); repeat constructor.
Qed.

Lemma one_pass_of_kept (a : ascii) (tl : str) :
  kept a = true ->
  one_pass (a :: tl) =
  a :: match tl with
       | b :: _ => if implicit_product a b then "*" :: one_pass tl else one_pass tl
       | [] => one_pass tl
       end.
Proof.
  intros H. rewrite one_pass_cons, H. destruct tl as [|b tl']; [reflexivity|].
  destruct (implicit_product a b); reflexivity.
Qed.

Lemma implicit_product_star_l (b : ascii) : implicit_product "*" b = false.
Proof. reflexivity. Qed.

Lemma implicit_product_star_r (a : ascii) : implicit_product a "*" = false.
Proof.
  unfold implicit_product. change (in_player_symbols "*") with false.
  change (isdigit "*") with false. rewrite !andb_false_r. reflexivity.
Qed.

Lemma one_pass_no_implicit_product (s : str) :
  Forall (fun ch => kept ch = true) s -> no_implicit_product (one_pass s) = true.
Proof.
  induction s as [|a tl IH]; intros H; [reflexivity|].
  inversion H as [|? ? Ha Htl]; subst. specialize (IH Htl).
  rewrite (one_pass_of_kept a tl Ha).
  destruct tl as [|b tl']; [reflexivity|].
  inversion Htl as [|? ? Hb _]; subst.
  rewrite (one_pass_of_kept b tl' Hb) in IH |- *.
  destruct (implicit_product a b) eqn:E.
  - cbn [no_implicit_product]. rewrite implicit_product_star_r, implicit_product_star_l.
    exact IH.
  - cbn [no_implicit_product]. rewrite E. exact IH.
Qed.

Lemma one_pass_fixed (s : str) :
  Forall (fun ch => kept ch = true) s -> no_implicit_product s = true ->
  one_pass s = s.
Proof.
  induction s as [|a tl IH]; intros H Hn; [reflexivity|].
  inversion H as [|? ? Ha Htl]; subst.
  rewrite (one_pass_of_kept a tl Ha).
  destruct tl as [|b tl']; [reflexivity|].
  cbn [no_implicit_product] in Hn. apply andb_true_iff in Hn as [Hab Hn].
  apply negb_true_iff in Hab. rewrite Hab. f_equal. apply IH; assumption.
Qed.

(** X1: the nested loops of the normalizer compute the one-pass rewrite
    [one_pass]: a character is copied when it is a digit, a player symbol
    or one of ['+-*/='] and dropped otherwise, and a ["*"] is added after
    it exactly when it and the next raw character are a digit and a
    player symbol, in either order. *)
Theorem preprocess_is_one_pass (raw : str) :
  preprocess_equation_string raw = one_pass raw.
Proof. apply preprocess_one_pass. Qed.

(** X2: every character of a normalized string is a digit, a player
    symbol or one of ['+-*/=']. *)
Theorem preprocess_alphabet (raw : str) :
  Forall (fun ch => kept ch = true) (preprocess_equation_string raw).
Proof. rewrite preprocess_one_pass. apply one_pass_kept. Qed.

(** X3: apart from the ["*"], the normalized string is the raw string
    without its dropped characters, in the same order: normalizing only
    deletes characters that are not kept and inserts ["*"]. *)
Theorem preprocess_only_adds_stars (raw : str) :
  filter not_star (preprocess_equation_string raw) =
  filter (fun ch => kept ch && not_star ch) raw.
Proof.
  rewrite preprocess_one_pass.
  induction raw as [|a tl IH]; [reflexivity|].
  rewrite one_pass_cons, !filter_app, IH. cbn [filter].
  assert (Hstar : filter not_star
            match tl with
            | b :: _ => if implicit_product a b then ["*"] else []
            | [] => []
            end = []).
  { destruct tl as [|b tl']; [reflexivity|].
    destruct (implicit_product a b); reflexivity. }
  rewrite Hstar. cbn [app].
  destruct (kept a); cbn [filter andb]; [|reflexivity].
  destruct (not_star a); reflexivity.
Qed.

(** X4: when the raw string has no character to drop, no digit stands
    next to a player symbol in the normalized string. *)
Theorem preprocess_separates_products (raw : str) :
  Forall (fun ch => kept ch = true) raw ->
  no_implicit_product (preprocess_equation_string raw) = true.
Proof. intros H. rewrite preprocess_one_pass. now apply one_pass_no_implicit_product. Qed.

(** X5: on a raw string with no character to drop, normalizing twice is
    normalizing once. *)
Theorem preprocess_idempotent (raw : str) :
  Forall (fun ch => kept ch = true) raw ->
  preprocess_equation_string (preprocess_equation_string raw) =
  preprocess_equation_string raw.
Proof.
  intros H. rewrite !preprocess_one_pass.
  apply one_pass_fixed; [apply one_pass_kept | now apply one_pass_no_implicit_product].
Qed.

(** ** What a valid equation looks like *)

Section ValidShape.

Context `{CAS : SymPy}.

Lemma is_valid_equation_Some (s : str) (v : ascii) (n : Z) :
  is_valid_equation s v = Some n ->
  structural_prechecks s v = true /\
  has_operator (preprocess_equation_string s) = true.
Proof.
  rewrite is_valid_equation_stages.
  destruct (structural_prechecks s v); [|discriminate].
  destruct (has_operator (preprocess_equation_string s)); [|discriminate].
  now split.
Qed.

Lemma structural_prechecks_true (s : str) (v : ascii) :
  structural_prechecks s v = true ->
  MIN_EQ_LEN <= len s /\ count "=" s = 1 /\ char_in v s = true /\
  forall o, opp_var v = Some o -> char_in o s = false.
Proof.
  unfold structural_prechecks. rewrite !andb_true_iff, negb_true_iff.
  intros [[[Hl Hc] Hv] Ho]. apply Z.leb_le in Hl. apply Z.eqb_eq in Hc.
  repeat split; try assumption.
  intros o E. rewrite E in Ho. exact Ho.
Qed.

(** X6: a string that is a valid equation for one player is not one for
    the other player. *)
Theorem valid_for_one_player_only (s : str) (pid : PlayerId) (n : Z) :
  is_valid_equation s (symbol pid) = Some n ->
  is_valid_equation s (symbol (opponent pid)) = None.
Proof.
  intros H. apply is_valid_equation_Some in H as [H _].
  apply structural_prechecks_true in H as (_ & _ & Hv & _).
  apply prechecks_fail. unfold structural_prechecks.
  rewrite opp_var_symbol. replace (opponent (opponent pid)) with pid
    by (destruct pid; reflexivity).
  rewrite Hv. apply andb_false_r.
Qed.

End ValidShape.

(** ** The line of a reported win *)

Lemma in_range (n i : Z) : In i (range n) <-> 0 <= i < n.
Proof.
  unfold range. rewrite in_map_iff. split.
  - intros (k & <- & Hk). apply in_seq in Hk. lia.
  - intros H. exists (Z.to_nat i). split; [lia|]. apply in_seq. lia.
Qed.

Lemma firstn_seq_le (k : nat) :
  forall a n, (k <= n)%nat -> firstn k (seq a n) = seq a k.
Proof.
  induction k as [|k IH]; intros a n H; [reflexivity|].
  destruct n as [|n]; [lia|]. cbn [seq firstn]. f_equal. apply IH. lia.
Qed.

Lemma firstn_range (k : nat) (n : Z) :
  (k <= Z.to_nat n)%nat -> firstn k (range n) = range (Z.of_nat k).
Proof.
  intros H. unfold range. rewrite firstn_map, (firstn_seq_le k 0 _ H), Nat2Z.id.
  reflexivity.
Qed.

Lemma length_range (n : Z) : List.length (range n) = Z.to_nat n.
Proof. unfold range. now rewrite length_map, length_seq. Qed.

(** What the walk collects: the cells at the first steps of [idx], each on
    the board and holding the symbol recorded for it. *)
Lemma run_cells_cells (board : list (list ascii)) (size r0 c0 dr dc : Z)
    (idx : list Z) :
  (List.length (fst (run_cells board size r0 c0 dr dc idx)) <= List.length idx)%nat /\
  map fst (fst (run_cells board size r0 c0 dr dc idx)) =
    map (fun i => (r0 + i * dr, c0 + i * dc))
        (firstn (List.length (fst (run_cells board size r0 c0 dr dc idx))) idx) /\
  Forall (fun x : (Z * Z) * ascii =>
            in_bounds size (fst (fst x)) (snd (fst x)) = true /\
            board_get board (fst (fst x)) (snd (fst x)) = Some (snd x) /\
            snd x <> EMPTY_CELL)
         (fst (run_cells board size r0 c0 dr dc idx)).
Proof.
  induction idx as [|i rest IH]; cbn [run_cells].
  - repeat split; [apply le_n | constructor].
  - destruct (in_bounds size (r0 + i * dr) (c0 + i * dc)) eqn:Hb; cbn [negb];
      [|repeat split; [apply Nat.le_0_l | constructor]].
    destruct (board_get board (r0 + i * dr) (c0 + i * dc)) as [ch|] eqn:Hg;
      [|repeat split; [apply Nat.le_0_l | constructor]].
    destruct (Ascii.eqb_spec ch EMPTY_CELL) as [->|Hne];
      [repeat split; [apply Nat.le_0_l | constructor]|].
    destruct (run_cells board size r0 c0 dr dc rest) as [cells bd].
    cbn [fst] in *. destruct IH as (Hlen & Hmap & Hall).
    cbn [List.length firstn map fst]. repeat split.
    + lia.
    + now rewrite Hmap.
    + constructor; [cbn; repeat split; assumption | exact Hall].
Qed.

(** A candidate of the board is a straight run of at least [MIN_EQ_LEN]
    and at most [size] non-empty cells of the board, with their
    characters as written or reversed. *)
Lemma candidate_shape (board : list (list ascii)) (size : Z) (c : candidate) :
  In c (candidates board size) ->
  exists r0 c0 dr dc (cells : list ((Z * Z) * ascii)),
    0 <= r0 < size /\ 0 <= c0 < size /\ In (dr, dc) DIRECTIONS /\
    MIN_EQ_LEN <= len cells <= size /\
    map fst cells = line r0 c0 dr dc (len cells) /\
    Forall (fun x : (Z * Z) * ascii =>
              in_bounds size (fst (fst x)) (snd (fst x)) = true /\
              board_get board (fst (fst x)) (snd (fst x)) = Some (snd x) /\
              snd x <> EMPTY_CELL) cells /\
    (c = (map fst cells, map snd cells) \/ c = (map fst cells, rev (map snd cells))).
Proof.
  unfold candidates. intros Hin.
  apply in_flat_map in Hin as (r0 & Hr0 & Hin).
  apply in_flat_map in Hin as (c0 & Hc0 & Hin).
  apply in_flat_map in Hin as ([dr dc] & Hd & Hin). cbn [fst snd] in Hin.
  pose proof (run_cells_cells board size r0 c0 dr dc (range size))
    as (Hlen & Hmap & Hall).
  destruct (run_cells board size r0 c0 dr dc (range size)) as [cells bd].
  cbn [fst] in *. rewrite length_range in Hlen.
  apply in_ray_candidates in Hin as (k & Hk & Hmin & Hc).
  exists r0, c0, dr, dc, (firstn k cells).
  assert (Hlk : List.length (firstn k cells) = k)
    by (rewrite length_firstn; lia).
  unfold len. rewrite Hlk.
  apply in_range in Hr0. apply in_range in Hc0.
  repeat split; try lia; try assumption.
  - rewrite <- firstn_map, Hmap, <- firstn_map, firstn_firstn.
    replace (Init.Nat.min k (List.length cells)) with k by lia.
    rewrite firstn_map, firstn_range by lia. reflexivity.
  - apply Forall_forall. intros x Hx. rewrite Forall_forall in Hall.
    apply Hall. rewrite <- (firstn_skipn k cells). apply in_or_app. now left.
  - destruct Hc as [<-|[<-|[]]]; [now left | now right].
Qed.

Lemma cells_at_cells (board : list (list ascii)) (size : Z)
    (cells : list ((Z * Z) * ascii)) :
  Forall (fun x : (Z * Z) * ascii =>
            in_bounds size (fst (fst x)) (snd (fst x)) = true /\
            board_get board (fst (fst x)) (snd (fst x)) = Some (snd x) /\
            snd x <> EMPTY_CELL) cells ->
  cells_at board (map fst cells) = map Some (map snd cells).
Proof.
  unfold cells_at. induction 1 as [|x l (_ & Hg & _) _ IH]; [reflexivity|].
  cbn [map]. now rewrite Hg, IH.
Qed.

Section WinShape.

Context `{CAS : SymPy}.


(** X8: the cells of the board at the coordinates of a reported win hold
    the characters of the equation text, in this order or in the reverse
    order, and none of them is empty. *)
Theorem win_is_on_the_board (board : list (list ascii)) (size : Z) (v : ascii)
    (w : WinResult) :
  check_win_board board size v = Some w ->
  (cells_at board (coordinates w) = map Some (equation_text w) \/
   cells_at board (coordinates w) = map Some (rev (equation_text w))) /\
  ~ In EMPTY_CELL (equation_text w).
Proof.
  intros H. apply check_win_board_Some in H as [Hin _].
  apply candidate_shape in Hin
    as (r0 & c0 & dr & dc & cells & _ & _ & _ & _ & _ & Hall & Hw).
  pose proof (cells_at_cells board size cells Hall) as Hcells.
  assert (Hne : ~ In EMPTY_CELL (map snd cells)).
  { intros (x & Hx & Hin)%in_map_iff. rewrite Forall_forall in Hall.
    destruct (Hall x Hin) as (_ & _ & Hnot). now apply Hnot. }
  destruct Hw as [E|E]; injection E as -> ->.
  - split; [now left | exact Hne].
  - split; [right; now rewrite rev_involutive|].
    intros Hin. apply Hne. now apply in_rev.
Qed.



Lemma check_win_board_all_empty (board : list (list ascii)) (size : Z) (v : ascii) :
  all_empty board -> check_win_board board size v = None.
Proof.
  intros He. destruct (check_win_board board size v) as [w|] eqn:E; [|reflexivity].
  apply check_win_board_Some in E as [Hin _].
  apply candidate_shape in Hin as (_ & _ & _ & _ & cells & _ & _ & _ & Hk & _ & Hall & _).
  destruct cells as [|x cells]; [unfold len, MIN_EQ_LEN in Hk; cbn in Hk; lia|].
  inversion Hall as [|? ? (_ & Hg & Hne) _]; subst.
  destruct Hne. exact (He _ _ _ Hg).
Qed.

(** X10: on a board that holds no symbol no win is reported. *)
Theorem no_win_on_empty_board (board : list (list ascii)) (size : Z) (v : ascii) :
  all_empty board -> check_win_board board size v = None.
Proof. apply check_win_board_all_empty. Qed.

(** X11: a win is not lost by further placements: when a board reports a
    win for a variable, every board that keeps all its symbols in place
    reports a win for that variable too. *)
Theorem win_survives_placements (b1 b2 : list (list ascii)) (size : Z) (v : ascii)
    (w : WinResult) :
  extends b1 b2 ->
  check_win_board b1 size v = Some w ->
  exists w', check_win_board b2 size v = Some w'.
Proof.
  intros Hext H. apply check_win_board_Some in H as [Hin Hvalid].
  assert (Hag : agree_on b1 b2 (coordinates w)).
  { pose proof (candidate_shape _ _ _ Hin)
      as (_ & _ & _ & _ & cells & _ & _ & _ & _ & _ & Hall & Hw).
    assert (Hcoords : coordinates w = map fst cells)
      by (destruct Hw as [E|E]; now injection E).
    rewrite Hcoords. intros rc (x & <- & Hx)%in_map_iff.
    rewrite Forall_forall in Hall. destruct (Hall x Hx) as (_ & Hg & Hne).
    rewrite Hg. now apply Hext. }
  pose proof (candidate_transfers b1 b2 size _ Hin Hag) as Hin2.
  destruct (check_win_board b2 size v) as [w'|] eqn:E; [now exists w'|].
  rewrite check_win_board_candidates in E.
  pose proof (proj1 (first_some_None _ _) E _ Hin2) as Hnone.
  unfold try_candidate in Hnone. cbn [fst snd] in Hnone.
  rewrite Hvalid in Hnone. discriminate.
Qed.

(** X12: the equation text of a win reported for a player holds that
    player's variable, exactly one ['='] and not the other player's
    variable, and its normalized form holds an arithmetic operator. *)
Theorem win_text_shape (board : list (list ascii)) (size : Z) (pid : PlayerId)
    (w : WinResult) :
  check_win_board board size (symbol pid) = Some w ->
  char_in (symbol pid) (equation_text w) = true /\
  char_in (symbol (opponent pid)) (equation_text w) = false /\
  count "=" (equation_text w) = 1 /\
  has_operator (preprocess_equation_string (equation_text w)) = true.
Proof.
  intros H. apply check_win_board_Some in H as [_ Hvalid].
  apply is_valid_equation_Some in Hvalid as [Hpre Hop].
  apply structural_prechecks_true in Hpre as (_ & Hc & Hv & Ho).
  repeat split; try assumption. apply Ho, opp_var_symbol.
Qed.

End WinShape.

(** ** Writing a cell of the board *)

Lemma list_set_nth {X : Type} (l : list X) :
  forall i x l', list_set l i x = Some l' ->
    List.length l' = List.length l /\
    (i < List.length l)%nat /\
    forall j, nth_error l' j = if (j =? i)%nat then Some x else nth_error l j.
Proof.
  induction l as [|a tl IH]; intros i x l' H; [discriminate|].
  destruct i as [|i]; cbn [list_set] in H.
  - injection H as <-. repeat split; [cbn; lia|].
    intros [|j]; reflexivity.
  - destruct (list_set tl i x) as [tl'|] eqn:E; [|discriminate].
    injection H as <-. destruct (IH _ _ _ E) as (Hlen & Hi & Hnth).
    repeat split; [cbn; lia | cbn; lia|].
    intros [|j]; [reflexivity|]. cbn [nth_error]. rewrite Hnth. reflexivity.
Qed.

Lemma list_set_in_range {X : Type} (l : list X) :
  forall i x, (i < List.length l)%nat -> exists l', list_set l i x = Some l'.
Proof.
  induction l as [|a tl IH]; intros i x H; [cbn in H; lia|].
  destruct i as [|i]; cbn [list_set]; [eexists; reflexivity|].
  destruct (IH i x) as [tl' ->]; [cbn in H; lia|]. eexists; reflexivity.
Qed.

Lemma list_set_Forall {X : Type} (P : X -> Prop) (l : list X) :
  forall i x l', list_set l i x = Some l' -> Forall P l -> P x -> Forall P l'.
Proof.
  induction l as [|a tl IH]; intros i x l' H Hall Hx; [discriminate|].
  inversion Hall as [|? ? Ha Htl]; subst.
  destruct i as [|i]; cbn [list_set] in H.
  - injection H as <-. now constructor.
  - destruct (list_set tl i x) as [tl'|] eqn:E; [|discriminate].
    injection H as <-. constructor; [exact Ha|]. eapply IH; eassumption.
Qed.

(** Reading the board after a write: the written cell holds the new
    character, every other cell what it held. *)
Lemma board_get_set (b b' : list (list ascii)) (r c : Z) (ch : ascii) :
  0 <= r -> 0 <= c ->
  board_set b r c ch = Some b' ->
  forall r' c', 0 <= r' -> 0 <= c' ->
    board_get b' r' c' =
    if (r' =? r) && (c' =? c) then Some ch else board_get b r' c'.
Proof.
  intros Hr Hc H r' c' Hr' Hc'. unfold board_set in H. unfold board_get.
  destruct (nth_error b (Z.to_nat r)) as [row|] eqn:Hrow; [|discriminate].
  destruct (list_set row (Z.to_nat c) ch) as [row'|] eqn:Hset; [|discriminate].
  destruct (list_set_nth _ _ _ _ H) as (_ & _ & Hb).
  destruct (list_set_nth _ _ _ _ Hset) as (_ & _ & Hrow').
  rewrite Hb.
  destruct (Z.eqb_spec r' r) as [->|Hne].
  - rewrite Nat.eqb_refl, Hrow'. cbn [andb].
    destruct (Z.eqb_spec c' c) as [->|Hnc].
    + now rewrite Nat.eqb_refl.
    + replace (Z.to_nat c' =? Z.to_nat c)%nat with false
        by (symmetry; apply Nat.eqb_neq; lia).
      now rewrite Hrow.
  - replace (Z.to_nat r' =? Z.to_nat r)%nat with false
      by (symmetry; apply Nat.eqb_neq; lia).
    reflexivity.
Qed.

Lemma square_rows (b : list (list ascii)) (n r : Z) (row : list ascii) :
  square b n -> nth_error b (Z.to_nat r) = Some row -> len row = n.
Proof.
  intros [_ Hrows] H. rewrite Forall_forall in Hrows.
  apply Hrows. eapply nth_error_In; eassumption.
Qed.

(** On a square board a write inside the bounds succeeds and leaves the
    board square. *)
Lemma board_set_square (b : list (list ascii)) (n r c : Z) (ch : ascii) :
  square b n -> 0 <= r < n -> 0 <= c < n ->
  exists b', board_set b r c ch = Some b' /\ square b' n.
Proof.
  intros Hsq Hr Hc. pose proof Hsq as [Hlen Hrows]. unfold len in Hlen.
  unfold board_set.
  destruct (nth_error b (Z.to_nat r)) as [row|] eqn:Hrow.
  2:{ apply nth_error_None in Hrow. lia. }
  pose proof (square_rows _ _ _ _ Hsq Hrow) as Hrl. unfold len in Hrl.
  destruct (list_set_in_range row (Z.to_nat c) ch) as [row' Hset]; [lia|].
  rewrite Hset.
  destruct (list_set_in_range b (Z.to_nat r) row') as [b' Hb]; [lia|].
  exists b'. split; [exact Hb|].
  destruct (list_set_nth _ _ _ _ Hb) as (Hlb & _ & _).
  destruct (list_set_nth _ _ _ _ Hset) as (Hlr & _ & _).
  split; [unfold len; lia|].
  eapply list_set_Forall; [exact Hb | exact Hrows | unfold len; lia].
Qed.

Lemma square_empty_board (n : Z) : 0 <= n -> square (empty_board n) n.
Proof.
  intros H. unfold square, empty_board, len. rewrite repeat_length. split; [lia|].
  apply Forall_forall. intros row Hrow. apply repeat_spec in Hrow. subst row.
  rewrite repeat_length. lia.
Qed.

Lemma all_empty_empty_board (n : Z) : all_empty (empty_board n).
Proof.
  intros r c ch. unfold board_get, empty_board.
  destruct (nth_error (repeat (repeat EMPTY_CELL (Z.to_nat n)) (Z.to_nat n))
              (Z.to_nat r)) as [row|] eqn:Hrow; [|discriminate].
  apply nth_error_In, repeat_spec in Hrow. subst row.
  intros H. apply nth_error_In, repeat_spec in H. exact H.
Qed.

(** ** More on the placement rule *)

Lemma ray_misses_on_empty (b : list (list ascii)) (size : Z) (opp_sym : ascii)
    (r c dr dc : Z) (idx : list Z) :
  all_empty b -> opp_sym <> EMPTY_CELL ->
  ray_hits_opponent b size opp_sym r c dr dc idx = false.
Proof.
  intros He Hopp. induction idx as [|i rest IH]; [reflexivity|].
  cbn [ray_hits_opponent].
  destruct (in_bounds size (r + i * dr) (c + i * dc)); cbn [negb]; [|reflexivity].
  destruct (board_get b (r + i * dr) (c + i * dc)) as [ch|] eqn:Hg; [|reflexivity].
  rewrite (He _ _ _ Hg).
  destruct (Ascii.eqb_spec EMPTY_CELL opp_sym) as [E|_]; [now destruct Hopp|].
  exact IH.
Qed.

Lemma existsb_all_false {X : Type} (f : X -> bool) (l : list X) :
  (forall a, In a l -> f a = false) -> existsb f l = false.
Proof.
  intros H. destruct (existsb f l) eqn:E; [|reflexivity].
  apply existsb_exists in E as (a & Ha & Hf). now rewrite H in Hf.
Qed.

Lemma placement_valid_on_empty (b : list (list ascii)) (size : Z) (pid : PlayerId)
    (r c : Z) :
  all_empty b -> is_variable_placement_valid b size (Some pid) r c = true.
Proof.
  intros He. unfold is_variable_placement_valid. apply negb_true_iff.
  apply existsb_all_false; intros dr _.
  apply existsb_all_false; intros dc _.
  destruct ((dr =? 0) && (dc =? 0)); [reflexivity|].
  apply ray_misses_on_empty; [exact He | destruct pid; discriminate].
Qed.

Section Shielding.

Variables b b' : list (list ascii).
Variable size : Z.
Variables r0 c0 : Z.
Variable ch : ascii.
Hypothesis Hr0 : 0 <= r0.
Hypothesis Hc0 : 0 <= c0.
Hypothesis Hempty : board_get b r0 c0 = Some EMPTY_CELL.
Hypothesis Hset : board_set b r0 c0 ch = Some b'.

Lemma cell_after_placement (r c : Z) :
  in_bounds size r c = true ->
  board_get b' r c = if (r =? r0) && (c =? c0) then Some ch else board_get b r c.
Proof.
  intros H. apply in_bounds_iff in H.
  apply (board_get_set b b' r0 c0 ch Hr0 Hc0 Hset); lia.
Qed.

(** A symbol other than the opponent's variable, placed on an empty cell,
    opens no ray to the opponent's variable. *)
Lemma ray_shielded (opp_sym : ascii) (r c dr dc : Z) (idx : list Z) :
  ch <> opp_sym ->
  ray_hits_opponent b' size opp_sym r c dr dc idx = true ->
  ray_hits_opponent b size opp_sym r c dr dc idx = true.
Proof.
  intros Hne. induction idx as [|i rest IH]; [discriminate|].
  cbn [ray_hits_opponent].
  destruct (in_bounds size (r + i * dr) (c + i * dc)) eqn:Hb; cbn [negb];
    [|discriminate].
  rewrite (cell_after_placement _ _ Hb).
  destruct ((r + i * dr =? r0) && (c + i * dc =? c0)) eqn:Hat.
  - apply andb_true_iff in Hat as [->%Z.eqb_eq ->%Z.eqb_eq]. rewrite Hempty.
    destruct (Ascii.eqb_spec ch opp_sym) as [E|_]; [now destruct Hne|].
    destruct (Ascii.eqb_spec EMPTY_CELL opp_sym) as [_|_]; [reflexivity|].
    change (Ascii.eqb EMPTY_CELL EMPTY_CELL) with true. cbn [negb].
    destruct (Ascii.eqb ch EMPTY_CELL); cbn [negb]; [exact IH | discriminate].
  - destruct (board_get b (r + i * dr) (c + i * dc)) as [x|]; [|discriminate].
    destruct (Ascii.eqb x opp_sym); [reflexivity|].
    destruct (Ascii.eqb x EMPTY_CELL); cbn [negb]; [exact IH | discriminate].
Qed.

(** The opponent's variable, written on a cell, closes no ray. *)
Lemma ray_stays_hit (opp_sym : ascii) (r c dr dc : Z) (idx : list Z) :
  ch = opp_sym ->
  ray_hits_opponent b size opp_sym r c dr dc idx = true ->
  ray_hits_opponent b' size opp_sym r c dr dc idx = true.
Proof.
  intros Hch. induction idx as [|i rest IH]; [discriminate|].
  cbn [ray_hits_opponent].
  destruct (in_bounds size (r + i * dr) (c + i * dc)) eqn:Hb; cbn [negb];
    [|discriminate].
  rewrite (cell_after_placement _ _ Hb).
  destruct ((r + i * dr =? r0) && (c + i * dc =? c0)) eqn:Hat.
  - rewrite Hch, Ascii.eqb_refl. reflexivity.
  - destruct (board_get b (r + i * dr) (c + i * dc)) as [x|]; [|discriminate].
    destruct (Ascii.eqb x opp_sym); [reflexivity|].
    destruct (Ascii.eqb x EMPTY_CELL); cbn [negb]; [exact IH | discriminate].
Qed.

End Shielding.

Lemma existsb_impl {X : Type} (f g : X -> bool) (l : list X) :
  (forall a, f a = true -> g a = true) -> existsb f l = true -> existsb g l = true.
Proof.
  intros H (a & Ha & Hf)%existsb_exists. apply existsb_exists.
  exists a. split; [exact Ha | now apply H].
Qed.

(** X13: a placement can only shield: after a symbol other than the
    opponent's variable is written on an empty cell, every cell where the
    player could place the variable before still allows it. *)
Theorem placement_shielded_by_own_symbols (b b' : list (list ascii)) (size : Z)
    (pid : PlayerId) (r0 c0 : Z) (ch : ascii) (r c : Z) :
  0 <= r0 -> 0 <= c0 ->
  board_get b r0 c0 = Some EMPTY_CELL ->
  board_set b r0 c0 ch = Some b' ->
  ch <> symbol (opponent pid) ->
  is_variable_placement_valid b size (Some pid) r c = true ->
  is_variable_placement_valid b' size (Some pid) r c = true.
Proof.
  intros Hr0 Hc0 Hempty Hset Hne. unfold is_variable_placement_valid.
  fold (opponent pid). rewrite !negb_true_iff.
  intros H. destruct (existsb _ _) eqn:E in |- *; [|reflexivity].
  rewrite <- H. symmetry. revert E.
  apply existsb_impl; intros dr. apply existsb_impl; intros dc.
  destruct ((dr =? 0) && (dc =? 0)); [discriminate|].
  apply (ray_shielded b b' size r0 c0 ch Hr0 Hc0 Hempty Hset); exact Hne.
Qed.

(** X14: the opponent's variable can only restrict: after it is written
    on a cell, every cell that was forbidden to the player's variable
    before is still forbidden. *)
Theorem placement_restricted_by_opponent (b b' : list (list ascii)) (size : Z)
    (pid : PlayerId) (r0 c0 : Z) (r c : Z) :
  0 <= r0 -> 0 <= c0 ->
  board_set b r0 c0 (symbol (opponent pid)) = Some b' ->
  is_variable_placement_valid b size (Some pid) r c = false ->
  is_variable_placement_valid b' size (Some pid) r c = false.
Proof.
  intros Hr0 Hc0 Hset. unfold is_variable_placement_valid.
  fold (opponent pid). rewrite !negb_false_iff.
  apply existsb_impl; intros dr. apply existsb_impl; intros dc.
  destruct ((dr =? 0) && (dc =? 0)); [discriminate|].
  apply (ray_stays_hit b b' size r0 c0 _ Hr0 Hc0 Hset); reflexivity.
Qed.

(** ** The game state of the client *)


Section ClientProperties.

Context `{CAS : SymPy}.

(** What the branch ['move'] does to a consistent, running game: the
    write succeeds, and the outcome is read off the new board. *)
Lemma handle_move_board (st : ClientGUI) (pid : PlayerId) (r c : Z) (ch : ascii) :
  consistent st -> gui_initialized st = true -> game_over st = false ->
  0 <= r < board_size st -> 0 <= c < board_size st ->
  exists b,
    board_set (board st) r c ch = Some b /\
    square b (board_size st) /\
    board (fst (handle_move st pid r c ch)) = b /\
    board_size (fst (handle_move st pid r c ch)) = board_size st /\
    gui_initialized (fst (handle_move st pid r c ch)) = true /\
    snd (handle_move st pid r c ch) =
      match check_win_board b (board_size st) (symbol pid) with
      | Some w => Some (pid, w)
      | None =>
          match check_win_board b (board_size st) (symbol (opponent pid)) with
          | Some w => Some (opponent pid, w)
          | None => None
          end
      end /\
    game_over (fst (handle_move st pid r c ch)) =
      match snd (handle_move st pid r c ch) with Some _ => true | None => false end /\
    (snd (handle_move st pid r c ch) = None ->
     current_turn (fst (handle_move st pid r c ch)) = opponent pid).
Proof.
  intros Hcons Hinit Hover Hr Hc. destruct (Hcons Hinit) as [_ Hsq].
  destruct (board_set_square _ _ r c ch Hsq Hr Hc) as (b & Hset & Hsq').
  exists b. unfold handle_move. fold (opponent pid). rewrite Hover, Hset.
  replace ((0 <=? r) && (r <? board_size st) && (0 <=? c) && (c <? board_size st))
    with true by (symmetry; rewrite !andb_true_iff, !Z.leb_le, !Z.ltb_lt; lia).
  cbn [negb].
  destruct (check_win_board b (board_size st) (symbol pid)) as [w|].
  - cbn. repeat split; try assumption; try reflexivity; try apply Hsq'.
    discriminate.
  - destruct (check_win_board b (board_size st) (symbol (opponent pid))) as [w|].
    + cbn. repeat split; try assumption; try reflexivity; try apply Hsq'.
      discriminate.
    + cbn. repeat split; try assumption; try reflexivity; apply Hsq'.
Qed.

Lemma consistent_handle_server_message (st : ClientGUI) (msg : ServerMsg) :
  consistent st -> consistent (fst (handle_server_message st msg)).
Proof.
  intros Hcons. unfold handle_server_message.
  destruct (negb (root_alive st) && negb (is_internal_closed msg)); [exact Hcons|].
  destruct msg as [pid size|pid r c ch| | | | | | |].
  - destruct (gui_initialized st) eqn:Hinit; cbn [negb fst]; [exact Hcons|].
    unfold initialize_game.
    destruct ((4 <=? size) && (size <=? 30)) eqn:Hsize; cbn [negb].
    + apply andb_true_iff in Hsize as [H4%Z.leb_le H30%Z.leb_le].
      cbn [root_alive]. destruct (root_alive st); cbn [negb]; intros _; cbn;
        (split; [lia | apply square_empty_board; lia]).
    + intros H. cbn in H. congruence.
  - destruct (gui_initialized st) eqn:Hinit; cbn [negb orb fst]; [|exact Hcons].
    destruct (gui_running st); cbn [negb fst]; [|exact Hcons].
    destruct (game_over st) eqn:Hover.
    { unfold handle_move. rewrite Hover. exact Hcons. }
    destruct ((0 <=? r) && (r <? board_size st) && (0 <=? c) && (c <? board_size st))
      eqn:Hb.
    2:{ unfold handle_move. rewrite Hover, Hb. exact Hcons. }
    rewrite !andb_true_iff, !Z.leb_le, !Z.ltb_lt in Hb.
    destruct (handle_move_board st pid r c ch Hcons Hinit Hover)
      as (b & _ & Hsq & Hboard & Hsize & _); [lia|lia|].
    intros _. rewrite Hboard, Hsize. split; [apply (Hcons Hinit) | exact Hsq].
  - destruct (gui_initialized st) eqn:Hinit; cbn [negb orb fst]; [|exact Hcons].
    destruct (gui_running st); cbn [negb fst]; [|exact Hcons].
    unfold reset_board_gui. rewrite Hinit. cbn [negb orb].
    destruct (root_alive st); cbn [negb]; [|exact Hcons].
    intros _. cbn. destruct (Hcons Hinit) as [Hsize _].
    split; [exact Hsize | apply square_empty_board; lia].
  - destruct (negb (gui_initialized st) || negb (gui_running st)); exact Hcons.
  - destruct (negb (gui_initialized st) || negb (gui_running st)); exact Hcons.
  - destruct (negb (gui_initialized st) || negb (gui_running st)); exact Hcons.
  - destruct (negb (gui_initialized st) || negb (gui_running st)); exact Hcons.
  - destruct (negb (gui_initialized st) || negb (gui_running st)); exact Hcons.
  - destruct (negb (gui_initialized st) || negb (gui_running st)); exact Hcons.
Qed.

Lemma on_cell_click_state (st : ClientGUI) (send_ok : bool) (r c : Z) :
  board (fst (on_cell_click st send_ok r c)) = board st /\
  board_size (fst (on_cell_click st send_ok r c)) = board_size st /\
  gui_initialized (fst (on_cell_click st send_ok r c)) = gui_initialized st /\
  game_over (fst (on_cell_click st send_ok r c)) = game_over st /\
  current_turn (fst (on_cell_click st send_ok r c)) = current_turn st /\
  player_id (fst (on_cell_click st send_ok r c)) = player_id st.
Proof.
  unfold on_cell_click.
  destruct (game_over st || negb (gui_initialized st) || negb (gui_running st));
    [now repeat split|].
  destruct (player_id st) as [me|] eqn:Hme; [|now repeat split].
  destruct (negb (PlayerId_eqb (current_turn st) me)); [now repeat split|].
  destruct (selected_char st) as [sel|]; [|now repeat split].
  destruct (match py_index (board st) r with
            | Some row => py_index row c
            | None => None
            end) as [cell|]; [|now repeat split].
  destruct (negb (Ascii.eqb cell EMPTY_CELL)); [now repeat split|].
  destruct (Ascii.eqb sel (symbol me) && _); [now repeat split|].
  destruct send_ok; cbn; now repeat split.
Qed.

Lemma consistent_client_step (st : ClientGUI) (e : ClientEvent) :
  consistent st -> consistent (client_step st e).
Proof.
  intros Hcons. destruct e as [msg|ok r c|ch|force answer]; cbn [client_step].
  - now apply consistent_handle_server_message.
  - destruct (on_cell_click_state st ok r c) as (Hb & Hs & Hi & _).
    unfold consistent. rewrite Hb, Hs, Hi. exact Hcons.
  - unfold on_char_select.
    destruct (game_over st || negb (gui_initialized st) || negb (gui_running st));
      exact Hcons.
  - unfold on_closing.
    destruct (if negb force && root_alive st then answer else force);
      exact Hcons.
Qed.

(** X15: whatever the server sends and the user clicks, the game state of
    the client stays consistent: once it is initialized, its board is a
    square of side [board_size], and [board_size] is between 4 and 30. *)
Theorem client_stays_consistent (st : ClientGUI) (events : list ClientEvent) :
  consistent st -> consistent (run_client st events).
Proof.
  unfold run_client. revert st.
  induction events as [|e events IH]; intros st H; [exact H|].
  cbn [fold_left]. apply IH. now apply consistent_client_step.
Qed.

(** X16: a ['move'] message inside the bounds, handled by a consistent,
    running game that is not over, writes the character of the message
    into the cell of the message, whatever that cell held, and leaves
    every other cell and the size of the board as they were. *)
Theorem move_writes_one_cell (st : ClientGUI) (pid : PlayerId) (r c : Z) (ch : ascii) :
  consistent st ->
  root_alive st = true -> gui_initialized st = true -> gui_running st = true ->
  game_over st = false ->
  0 <= r < board_size st -> 0 <= c < board_size st ->
  board_get (board (fst (handle_server_message st (MsgMove pid r c ch)))) r c
    = Some ch /\
  (forall r' c', 0 <= r' -> 0 <= c' -> (r', c') <> (r, c) ->
     board_get (board (fst (handle_server_message st (MsgMove pid r c ch)))) r' c'
     = board_get (board st) r' c') /\
  board_size (fst (handle_server_message st (MsgMove pid r c ch))) = board_size st.
Proof.
  intros Hcons Hroot Hinit Hrun Hover Hr Hc.
  unfold handle_server_message. rewrite Hroot, Hinit, Hrun. cbn [negb andb orb].
  destruct (handle_move_board st pid r c ch Hcons Hinit Hover Hr Hc)
    as (b & Hset & _ & -> & -> & _).
  pose proof (board_get_set _ _ r c ch (proj1 Hr) (proj1 Hc) Hset) as Hget.
  repeat split.
  - rewrite Hget by lia. now rewrite !Z.eqb_refl.
  - intros r' c' Hr' Hc' Hne. rewrite Hget by lia.
    destruct (Z.eqb_spec r' r) as [->|]; [|reflexivity].
    destruct (Z.eqb_spec c' c) as [->|]; [now destruct Hne | reflexivity].
Qed.

(** X17: how a handled move ends, read off the board after the move: a
    win of the mover is reported as the mover's even when the opponent
    has a winning line too; without one, a win of the opponent is reported
    as the opponent's (an assisted win); in both cases the game is over;
    with neither, the game goes on and the turn passes to the opponent
    of the mover. *)
Theorem move_outcome (st : ClientGUI) (pid : PlayerId) (r c : Z) (ch : ascii)
    (st' : ClientGUI) (report : option (PlayerId * WinResult)) :
  consistent st -> gui_initialized st = true -> game_over st = false ->
  0 <= r < board_size st -> 0 <= c < board_size st ->
  handle_move st pid r c ch = (st', report) ->
  (forall w,
     check_win_board (board st') (board_size st') (symbol pid) = Some w ->
     report = Some (pid, w) /\ game_over st' = true) /\
  (check_win_board (board st') (board_size st') (symbol pid) = None ->
   forall w,
     check_win_board (board st') (board_size st') (symbol (opponent pid)) = Some w ->
     report = Some (opponent pid, w) /\ game_over st' = true) /\
  (check_win_board (board st') (board_size st') (symbol pid) = None ->
   check_win_board (board st') (board_size st') (symbol (opponent pid)) = None ->
   report = None /\ game_over st' = false /\ current_turn st' = opponent pid).
Proof.
  intros Hcons Hinit Hover Hr Hc E.
  destruct (handle_move_board st pid r c ch Hcons Hinit Hover Hr Hc)
    as (b & _ & _ & Hb & Hs & _ & Hrep & Hgo & Hturn).
  rewrite E in *. cbn [fst snd] in *. rewrite Hb, Hs.
  repeat split.
  - rewrite Hrep, H. reflexivity.
  - rewrite Hgo, Hrep, H. reflexivity.
  - rewrite Hrep, H, H0. reflexivity.
  - rewrite Hgo, Hrep, H, H0. reflexivity.
  - rewrite Hrep, H, H0. reflexivity.
  - rewrite Hgo, Hrep, H, H0. reflexivity.
  - apply Hturn. rewrite Hrep, H, H0. reflexivity.
Qed.

(** X18: a finished game is frozen until it is reset: for an initialized
    client whose game is over, no message other than ['reset'] changes
    the board or restarts the game, a click on a cell sends nothing and a
    click on a character selects nothing. *)
Theorem finished_game_is_frozen (st : ClientGUI) :
  gui_initialized st = true -> game_over st = true ->
  (forall msg, msg <> MsgReset ->
     board (fst (handle_server_message st msg)) = board st /\
     game_over (fst (handle_server_message st msg)) = true /\
     gui_initialized (fst (handle_server_message st msg)) = true /\
     snd (handle_server_message st msg) = None) /\
  (forall send_ok r c, on_cell_click st send_ok r c = (st, ClickIgnored)) /\
  (forall char, on_char_select st char = st).
Proof.
  intros Hinit Hover. split; [|split].
  - intros msg Hmsg. unfold handle_server_message.
    destruct (negb (root_alive st) && negb (is_internal_closed msg));
      [now repeat split|].
    rewrite Hinit. cbn [negb orb].
    destruct msg; try (destruct (negb (gui_running st)); now repeat split).
    destruct (negb (gui_running st)); [now repeat split|].
    unfold handle_move. rewrite Hover. now repeat split.
  - intros send_ok r c. unfold on_cell_click. now rewrite Hover.
  - intros char. unfold on_char_select. now rewrite Hover.
Qed.


(** X20: a game that starts, by an ['init'] message with a supported size
    or by a reset, starts open: the board holds no symbol, it is player
    A's turn, no win is reported for any variable and a player may place
    the variable on every cell. *)
Theorem new_game_is_open (st : ClientGUI) (pid : PlayerId) (size : Z) :
  (4 <= size <= 30 ->
   board (initialize_game st pid size) = empty_board size /\
   board_size (initialize_game st pid size) = size /\
   player_id (initialize_game st pid size) = Some pid /\
   game_over (initialize_game st pid size) = false /\
   current_turn (initialize_game st pid size) = PlayerA) /\
  (gui_initialized st = true -> root_alive st = true ->
   board (reset_board_gui st) = empty_board (board_size st) /\
   game_over (reset_board_gui st) = false /\
   current_turn (reset_board_gui st) = PlayerA /\
   selected_char (reset_board_gui st) = None) /\
  (forall n v, check_win_board (empty_board n) n v = None) /\
  (forall n p r c,
     is_variable_placement_valid (empty_board n) n (Some p) r c = true).
Proof.
  split; [|split; [|split]].
  - intros [H4 H30]. unfold initialize_game.
    replace ((4 <=? size) && (size <=? 30)) with true
      by (symmetry; rewrite andb_true_iff, !Z.leb_le; lia).
    cbn [negb root_alive]. destruct (root_alive st); now repeat split.
  - intros Hinit Hroot. unfold reset_board_gui. rewrite Hinit, Hroot.
    now repeat split.
  - intros n v. apply check_win_board_all_empty, all_empty_empty_board.
  - intros n p r c. apply placement_valid_on_empty, all_empty_empty_board.
Qed.


End ClientProperties.

(** ** The list of clients of the server *)

Section ServerProperties.

Variable Socket : Type.
Variable socket_eqb : Socket -> Socket -> bool.
Hypothesis socket_eqb_spec : forall a b, socket_eqb a b = true <-> a = b.

Lemma PlayerId_eqb_refl (p : PlayerId) : PlayerId_eqb p p = true.
Proof. destruct p; reflexivity. Qed.

Lemma socket_eqb_refl (a : Socket) : socket_eqb a a = true.
Proof. now apply socket_eqb_spec. Qed.

Lemma find_client_Some (clients : list (Socket * PlayerId)) (s : Socket)
    (x : Socket * PlayerId) :
  find_client Socket socket_eqb clients s = Some x ->
  exists l1 l2,
    clients = l1 ++ x :: l2 /\ fst x = s /\ ~ In s (map fst l1).
Proof.
  unfold find_client. induction clients as [|a tl IH]; [discriminate|].
  cbn [find]. destruct (socket_eqb (fst a) s) eqn:E.
  - intros [= <-]. exists [], tl. repeat split; [now apply socket_eqb_spec|].
    intros [].
  - intros H. destruct (IH H) as (l1 & l2 & -> & Hx & Hnot).
    exists (a :: l1), l2. repeat split; [exact Hx|].
    cbn [map]. intros [Ha|Hin]; [|now apply Hnot].
    apply socket_eqb_spec in Ha. congruence.
Qed.

Lemma find_client_None (clients : list (Socket * PlayerId)) (s : Socket) :
  find_client Socket socket_eqb clients s = None <-> ~ In s (map fst clients).
Proof.
  unfold find_client. induction clients as [|a tl IH]; cbn [find map].
  - split; [intros _ [] | reflexivity].
  - destruct (socket_eqb (fst a) s) eqn:E.
    + split; [discriminate|]. intros H. destruct H. left.
      now apply socket_eqb_spec.
    + rewrite IH. split.
      * intros H [Ha|Hin]; [|now apply H].
        apply socket_eqb_spec in Ha. congruence.
      * intros H Hin. apply H. now right.
Qed.

Lemma list_remove_first (x : Socket * PlayerId) (l1 l2 : list (Socket * PlayerId)) :
  ~ In (fst x) (map fst l1) ->
  list_remove Socket socket_eqb x (l1 ++ x :: l2) = l1 ++ l2.
Proof.
  induction l1 as [|a l1 IH]; intros Hnot; cbn [app list_remove].
  - now rewrite socket_eqb_refl, PlayerId_eqb_refl.
  - destruct (socket_eqb (fst a) (fst x)) eqn:E.
    + destruct Hnot. left. now apply socket_eqb_spec.
    + cbn [andb]. f_equal. apply IH. intros Hin. apply Hnot. now right.
Qed.

(** What [remove_client] does to the list, by whether the socket is in
    it. *)
Lemma remove_client_cases (clients : list (Socket * PlayerId)) (s : Socket) :
  (~ In s (map fst clients) /\
   remove_client Socket socket_eqb clients s = (clients, false)) \/
  (exists l1 pid l2,
     clients = l1 ++ (s, pid) :: l2 /\ ~ In s (map fst l1) /\
     remove_client Socket socket_eqb clients s = (l1 ++ l2, true)).
Proof.
  unfold remove_client.
  destruct (find_client Socket socket_eqb clients s) as [x|] eqn:E.
  - right. destruct (find_client_Some _ _ _ E) as (l1 & l2 & -> & Hx & Hnot).
    destruct x as [s' pid]. cbn [fst] in Hx. subst s'.
    exists l1, pid, l2. repeat split; [exact Hnot|].
    now rewrite list_remove_first.
  - left. split; [now apply find_client_None | reflexivity].
Qed.

(** X21: [remove_client] takes out of the list the first entry of the
    socket and nothing else, and reports a removal (after which the
    socket is closed) exactly when the socket was in the list; a socket
    that is not in the list leaves the list as it is. *)
Theorem remove_client_removes_first (clients : list (Socket * PlayerId)) (s : Socket) :
  (snd (remove_client Socket socket_eqb clients s) = true <->
   In s (map fst clients)) /\
  (~ In s (map fst clients) ->
   fst (remove_client Socket socket_eqb clients s) = clients) /\
  (In s (map fst clients) ->
   exists l1 pid l2,
     clients = l1 ++ (s, pid) :: l2 /\ ~ In s (map fst l1) /\
     fst (remove_client Socket socket_eqb clients s) = l1 ++ l2).
Proof.
  destruct (remove_client_cases clients s)
    as [[Hnot ->]|(l1 & pid & l2 & -> & Hnot & ->)]; cbn [fst snd].
  - repeat split; try easy.
  - assert (Hin : In s (map fst (l1 ++ (s, pid) :: l2)))
      by (rewrite map_app; apply in_or_app; right; now left).
    repeat split; try easy.
    intros _. exists l1, pid, l2. now repeat split.
Qed.

(** X22: when no socket is twice in the list, a removed socket is no
    longer in the list, the sockets left are still distinct, and a second
    removal of the same socket changes nothing and reports no removal: a
    socket is closed at most once. *)
Theorem remove_client_once (clients : list (Socket * PlayerId)) (s : Socket) :
  NoDup (map fst clients) ->
  ~ In s (map fst (fst (remove_client Socket socket_eqb clients s))) /\
  NoDup (map fst (fst (remove_client Socket socket_eqb clients s))) /\
  remove_client Socket socket_eqb
    (fst (remove_client Socket socket_eqb clients s)) s =
  (fst (remove_client Socket socket_eqb clients s), false).
Proof.
  intros Hnd.
  assert (H : ~ In s (map fst (fst (remove_client Socket socket_eqb clients s))) /\
              NoDup (map fst (fst (remove_client Socket socket_eqb clients s)))).
  { destruct (remove_client_cases clients s)
      as [[Hnot ->]|(l1 & pid & l2 & -> & Hnot & ->)]; cbn [fst].
    - now split.
    - rewrite map_app in Hnd. cbn [map fst] in Hnd.
      rewrite map_app. split.
      + now apply NoDup_remove_2 in Hnd.
      + now apply NoDup_remove_1 in Hnd. }
  destruct H as [Hnot Hnd']. repeat split; [exact Hnot | exact Hnd'|].
  destruct (remove_client_cases
              (fst (remove_client Socket socket_eqb clients s)) s)
    as [[_ E]|(l1 & pid & l2 & E & _)]; [exact E|].
  destruct Hnot. rewrite E, map_app. apply in_or_app. right. now left.
Qed.

End ServerProperties.

Section ServerTrace.

Variable Socket : Type.
Variable socket_eqb : Socket -> Socket -> bool.

Lemma list_remove_filter (f : Socket * PlayerId -> bool) (x : Socket * PlayerId)
    (l : list (Socket * PlayerId)) :
  (List.length (filter f (list_remove Socket socket_eqb x l))
   <= List.length (filter f l))%nat.
Proof.
  induction l as [|a tl IH]; [apply le_n|]. cbn [list_remove].
  destruct (socket_eqb (fst a) (fst x) && PlayerId_eqb (snd a) (snd x)).
  - cbn [filter]. destruct (f a); cbn [List.length]; lia.
  - cbn [filter]. destruct (f a); cbn [List.length]; lia.
Qed.

Lemma server_invariant (events : list (ServerEvent Socket)) :
  forall st,
    0 <= snd st ->
    (snd st = 0 -> fst st = []) ->
    (List.length (filter (is_player_A Socket) (fst st)) <= 1)%nat ->
    let st' := fold_left (server_step Socket socket_eqb) events st in
    0 <= snd st' /\
    (snd st' = 0 -> fst st' = []) /\
    (List.length (filter (is_player_A Socket) (fst st')) <= 1)%nat /\
    (snd st < snd st' \/ (snd st = snd st' /\
                           forall s, ~ In (Accept Socket s) events)).
Proof.
  induction events as [|e events IH]; intros [clients n] Hn Hz Ha;
    cbn [fst snd fold_left] in *.
  - repeat split; try assumption. right. split; [reflexivity | intros s []].
  - destruct e as [s|s].
    + specialize (IH (clients ++ [(s, if n =? 0 then PlayerA else PlayerB)], n + 1)).
      cbn [server_step accept_client fst snd] in *.
      destruct IH as (H1 & H2 & H3 & H4).
      * lia.
      * lia.
      * rewrite filter_app, length_app. destruct (Z.eqb_spec n 0) as [E|E].
        -- rewrite (Hz E). cbn. lia.
        -- cbn. lia.
      * repeat split; try assumption. left. lia.
    + specialize (IH (fst (remove_client Socket socket_eqb clients s), n)).
      cbn [server_step fst snd] in *.
      assert (Hlen : (List.length (filter (is_player_A Socket)
                        (fst (remove_client Socket socket_eqb clients s)))
                      <= List.length (filter (is_player_A Socket) clients))%nat).
      { unfold remove_client.
        destruct (find_client Socket socket_eqb clients s); cbn [fst];
          [apply list_remove_filter | apply le_n]. }
      destruct IH as (H1 & H2 & H3 & H4).
      * exact Hn.
      * intros E. rewrite (Hz E). reflexivity.
      * lia.
      * repeat split; try assumption.
        destruct H4 as [H4|[H4 H5]]; [now left|].
        right. split; [exact H4|]. intros s' [Hs|Hs]; [discriminate | now apply (H5 s')].
Qed.

(** X23: in the list of clients of a server, after any sequence of
    accepted connections and removals, at most one client is player A;
    and once a connection was accepted, every further connection is made
    player B, also when the list is empty again. *)
Theorem only_first_connection_is_A (events : list (ServerEvent Socket)) :
  let st := fold_left (server_step Socket socket_eqb) events ([], 0) in
  (List.length (filter (is_player_A Socket) (fst st)) <= 1)%nat /\
  ((exists s, In (Accept Socket s) events) ->
   forall s', fst (fst (accept_client Socket (fst st) (snd st) s')) = PlayerB).
Proof.
  destruct (server_invariant events ([], 0)) as (H1 & _ & H3 & H4);
    cbn [fst snd]; [lia | reflexivity | apply Nat.le_0_l|].
  cbn [fst snd] in *. split; [exact H3|].
  intros [s Hs] s'. unfold accept_client. cbn [fst].
  destruct H4 as [H4|[_ H4]]; [|now destruct (H4 s)].
  destruct (Z.eqb_spec (snd (fold_left (server_step Socket socket_eqb) events ([], 0))) 0);
    [lia | reflexivity].
Qed.

End ServerTrace.

(** ** The further properties at concrete inputs *)

Lemma preprocess_separates_products_witness :
  Forall (fun ch => kept ch = true) (chars "2x+3=x4") /\
  no_implicit_product (preprocess_equation_string (chars "2x+3=x4")) = true.
Proof.
  assert (H : Forall (fun ch => kept ch = true) (chars "2x+3=x4"))
    by (repeat constructor).
  split; [exact H | exact (preprocess_separates_products _ H)].
Defined.

Lemma preprocess_idempotent_witness :
  Forall (fun ch => kept ch = true) (chars "2x+3=x4") /\
  preprocess_equation_string (preprocess_equation_string (chars "2x+3=x4")) =
  preprocess_equation_string (chars "2x+3=x4").
Proof.
  assert (H : Forall (fun ch => kept ch = true) (chars "2x+3=x4"))
    by (repeat constructor).
  split; [exact H | exact (preprocess_idempotent _ H)].
Defined.

Lemma valid_for_one_player_only_witness :
  Exact.validate (chars "x+1=3") "x" = Some 2 /\
  Exact.validate (chars "x+1=3") "y" = None.
Proof.
  assert (H : @is_valid_equation Exact.cas (chars "x+1=3") (symbol PlayerA) = Some 2)
    by (vm_compute; reflexivity).
  split; [exact H|].
  exact (@valid_for_one_player_only Exact.cas _ PlayerA _ H).
Defined.


Lemma win_is_on_the_board_witness :
  Exact.find_win board_one_line 6 "x" = Some win_row_2 /\
  (cells_at board_one_line (coordinates win_row_2)
     = map Some (equation_text win_row_2) \/
   cells_at board_one_line (coordinates win_row_2)
     = map Some (rev (equation_text win_row_2))) /\
  ~ In EMPTY_CELL (equation_text win_row_2).
Proof.
  assert (H : @check_win_board Exact.cas board_one_line 6 "x" = Some win_row_2)
    by (vm_compute; reflexivity).
  split; [exact H|].
  exact (@win_is_on_the_board Exact.cas _ _ _ _ H).
Defined.


Lemma no_win_on_empty_board_witness :
  all_empty (empty_board 6) /\ Exact.find_win (empty_board 6) 6 "x" = None.
Proof.
  split; [apply all_empty_empty_board|].
  exact (@no_win_on_empty_board Exact.cas _ 6 "x" (all_empty_empty_board 6)).
Defined.

Lemma board_two_lines_extends : extends board_one_line board_two_lines.
Proof.
  intros r c ch. unfold board_get.
  destruct (Z.to_nat r) as [|[|[|[|[|[|n]]]]]]; cbn;
    try discriminate;
    destruct (Z.to_nat c) as [|[|[|[|[|[|m]]]]]]; cbn;
    try discriminate; intros [= <-] H; try reflexivity; now destruct H.
Qed.

Lemma win_survives_placements_witness :
  extends board_one_line board_two_lines /\
  Exact.find_win board_one_line 6 "x" = Some win_row_2 /\
  exists w', Exact.find_win board_two_lines 6 "x" = Some w'.
Proof.
  assert (H : @check_win_board Exact.cas board_one_line 6 "x" = Some win_row_2)
    by (vm_compute; reflexivity).
  split; [exact board_two_lines_extends|]. split; [exact H|].
  exact (@win_survives_placements Exact.cas _ _ _ _ _ board_two_lines_extends H).
Defined.

Lemma win_text_shape_witness :
  Exact.find_win board_one_line 6 "x" = Some win_row_2 /\
  char_in "x" (equation_text win_row_2) = true /\
  char_in "y" (equation_text win_row_2) = false /\
  count "=" (equation_text win_row_2) = 1 /\
  has_operator (preprocess_equation_string (equation_text win_row_2)) = true.
Proof.
  assert (H : @check_win_board Exact.cas board_one_line 6 (symbol PlayerA)
              = Some win_row_2)
    by (vm_compute; reflexivity).
  split; [exact H|].
  exact (@win_text_shape Exact.cas _ _ PlayerA _ H).
Defined.

Lemma placement_shielded_by_own_symbols_witness :
  board_get board_blocked 2 3 = Some EMPTY_CELL /\
  board_set board_blocked 2 3 "+" = Some board_shielded /\
  is_variable_placement_valid board_blocked 4 (Some PlayerA) 0 0 = true /\
  is_variable_placement_valid board_shielded 4 (Some PlayerA) 0 0 = true.
Proof.
  split; [reflexivity|]. split; [reflexivity|]. split; [reflexivity|].
  apply (placement_shielded_by_own_symbols board_blocked board_shielded 4
           PlayerA 2 3 "+" 0 0);
    [lia | lia | reflexivity | reflexivity | discriminate | reflexivity].
Defined.

Lemma placement_restricted_by_opponent_witness :
  board_set board_blocked 0 0 "y" = Some board_two_opponents /\
  is_variable_placement_valid board_blocked 4 (Some PlayerA) 0 3 = false /\
  is_variable_placement_valid board_two_opponents 4 (Some PlayerA) 0 3 = false.
Proof.
  split; [reflexivity|]. split; [reflexivity|].
  apply (placement_restricted_by_opponent board_blocked board_two_opponents 4
           PlayerA 0 0 0 3);
    [lia | lia | reflexivity | reflexivity].
Defined.

Lemma consistent_client_about_to_win : consistent client_about_to_win.
Proof. intros _. split; [cbn; lia|]. split; [reflexivity | repeat constructor]. Qed.

Lemma client_stays_consistent_witness :
  consistent started_client /\
  consistent
    (@run_client Exact.cas started_client
       [FromServer (MsgInit PlayerA 6); CharSelect "x"; CellClick true 2 0;
        FromServer (MsgMove PlayerA 2 0 "x"); Closing false false]).
Proof.
  assert (H : consistent started_client) by (intros H; discriminate H).
  split; [exact H|].
  exact (@client_stays_consistent Exact.cas started_client _ H).
Defined.

Lemma move_writes_one_cell_witness :
  consistent client_about_to_win /\
  board_get
    (board (fst (@handle_server_message Exact.cas client_about_to_win
                   (MsgMove PlayerA 2 4 "5")))) 2 4 = Some "5"%char.
Proof.
  assert (Hr : 0 <= 2 < board_size client_about_to_win) by (cbn; lia).
  assert (Hc : 0 <= 4 < board_size client_about_to_win) by (cbn; lia).
  split; [exact consistent_client_about_to_win|].
  exact (proj1 (@move_writes_one_cell Exact.cas client_about_to_win PlayerA 2 4
                  "5" consistent_client_about_to_win eq_refl eq_refl eq_refl
                  eq_refl Hr Hc)).
Defined.

Lemma move_outcome_witness :
  @handle_move Exact.cas client_about_to_win PlayerA 2 4 "5" =
    (mkClient board_one_line 6 (Some PlayerA) PlayerA (Some "5"%char)
       true true true true,
     Some (PlayerA, win_row_2)) /\
  forall w,
    @check_win_board Exact.cas board_one_line 6 "x" = Some w ->
    Some (PlayerA, win_row_2) = Some (PlayerA, w) /\ true = true.
Proof.
  assert (H : @handle_move Exact.cas client_about_to_win PlayerA 2 4 "5" =
              (mkClient board_one_line 6 (Some PlayerA) PlayerA (Some "5"%char)
                 true true true true,
               Some (PlayerA, win_row_2)))
    by (vm_compute; reflexivity).
  assert (Hr : 0 <= 2 < board_size client_about_to_win) by (cbn; lia).
  assert (Hc : 0 <= 4 < board_size client_about_to_win) by (cbn; lia).
  split; [exact H|].
  exact (proj1 (@move_outcome Exact.cas client_about_to_win PlayerA 2 4 "5" _ _
                  consistent_client_about_to_win eq_refl eq_refl Hr Hc H)).
Defined.

Lemma finished_game_is_frozen_witness :
  gui_initialized client_finished = true /\
  game_over client_finished = true /\
  forall send_ok r c,
    on_cell_click client_finished send_ok r c = (client_finished, ClickIgnored).
Proof.
  split; [reflexivity|]. split; [reflexivity|].
  exact (proj1 (proj2 (@finished_game_is_frozen Exact.cas client_finished
                         eq_refl eq_refl))).
Defined.



Lemma remove_client_removes_first_witness :
  (forall a b, Nat.eqb a b = true <-> a = b) /\
  fst (remove_client nat Nat.eqb [(7, PlayerA); (9, PlayerB)]%nat 8%nat)
    = [(7, PlayerA); (9, PlayerB)]%nat.
Proof.
  assert (Hnot : ~ In 8%nat (map fst [(7, PlayerA); (9, PlayerB)]%nat))
    by (cbn; lia).
  split; [exact Nat.eqb_eq|].
  exact (proj1 (proj2 (remove_client_removes_first nat Nat.eqb Nat.eqb_eq
                         [(7, PlayerA); (9, PlayerB)]%nat 8%nat)) Hnot).
Defined.

Lemma remove_client_once_witness :
  (forall a b, Nat.eqb a b = true <-> a = b) /\
  NoDup (map fst [(7, PlayerA); (9, PlayerB)]%nat) /\
  remove_client nat Nat.eqb
    (fst (remove_client nat Nat.eqb [(7, PlayerA); (9, PlayerB)]%nat 7%nat)) 7%nat
  = (fst (remove_client nat Nat.eqb [(7, PlayerA); (9, PlayerB)]%nat 7%nat), false).
Proof.
  assert (H : NoDup (map fst [(7, PlayerA); (9, PlayerB)]%nat)).
  { cbn. repeat constructor; cbn; lia. }
  split; [exact Nat.eqb_eq|]. split; [exact H|].
  exact (proj2 (proj2 (remove_client_once nat Nat.eqb Nat.eqb_eq _ 7%nat H))).
Defined.

(** ** The font sizes of the board *)

(** X25: a larger board never gets a larger font: the two font sizes that
    [_build_gui] picks do not grow with the board size, and stay between
    7 and 14 for the board and between 8 and 10 for the character
    buttons. *)
Theorem font_sizes_shrink (s1 s2 : Z) :
  s1 <= s2 ->
  fst (font_sizes s2) <= fst (font_sizes s1) <= 14 /\
  snd (font_sizes s2) <= snd (font_sizes s1) <= 10 /\
  7 <= fst (font_sizes s2) /\ 8 <= snd (font_sizes s2).
Proof.
  intros H. unfold font_sizes, GUI_SIZE_PRESETS. cbn [find fst snd last].
  destruct (Z.leb_spec s1 8); destruct (Z.leb_spec s1 12);
    destruct (Z.leb_spec s1 16); destruct (Z.leb_spec s1 22);
    destruct (Z.leb_spec s1 30); try lia;
    destruct (Z.leb_spec s2 8); destruct (Z.leb_spec s2 12);
    destruct (Z.leb_spec s2 16); destruct (Z.leb_spec s2 22);
    destruct (Z.leb_spec s2 30); cbn [fst snd]; lia.
Qed.

Lemma font_sizes_shrink_witness :
  6 <= 15 /\ fst (font_sizes 15) <= fst (font_sizes 6) <= 14.
Proof.
  assert (H : 6 <= 15) by lia.
  split; [exact H | exact (proj1 (font_sizes_shrink 6 15 H))].
Defined.

(** ** No win is missed *)

Lemma map_fst_combine_eq {X Y : Type} (l : list X) :
  forall t : list Y, List.length l = List.length t ->
    map fst (combine l t) = l /\ map snd (combine l t) = t.
Proof.
  induction l as [|a l IH]; intros [|b t] H; try discriminate; [now split|].
  cbn [combine map fst snd]. injection H as H. destruct (IH t H) as [-> ->].
  now split.
Qed.

(** The walk collects at least the symbols that lie on its first steps. *)
Lemma run_cells_prefix (b : list (list ascii)) (size r0 c0 dr dc : Z)
    (steps : list Z) (t : str) :
  Forall2 (fun i ch =>
             in_bounds size (r0 + i * dr) (c0 + i * dc) = true /\
             board_get b (r0 + i * dr) (c0 + i * dc) = Some ch /\
             ch <> EMPTY_CELL) steps t ->
  forall rest, exists cells' bd,
    run_cells b size r0 c0 dr dc (steps ++ rest) =
    (combine (map (fun i => (r0 + i * dr, c0 + i * dc)) steps) t ++ cells', bd).
Proof.
  induction 1 as [|i ch steps t (Hb & Hg & Hne) _ IH]; intros rest.
  - cbn [app map combine].
    destruct (run_cells b size r0 c0 dr dc rest) as [cells' bd].
    now exists cells', bd.
  - cbn [app run_cells map combine]. rewrite Hb, Hg. cbn [negb].
    destruct (Ascii.eqb_spec ch EMPTY_CELL) as [E|_]; [now destruct Hne|].
    destruct (IH rest) as (cells' & bd & ->). now exists cells', bd.
Qed.

Lemma cells_on_steps (b : list (list ascii)) (size r0 c0 dr dc : Z) (steps : list Z) :
  forall t : str,
    map (fun i => board_get b (r0 + i * dr) (c0 + i * dc)) steps = map Some t ->
    Forall (fun i => in_bounds size (r0 + i * dr) (c0 + i * dc) = true) steps ->
    ~ In EMPTY_CELL t ->
    Forall2 (fun i ch =>
               in_bounds size (r0 + i * dr) (c0 + i * dc) = true /\
               board_get b (r0 + i * dr) (c0 + i * dc) = Some ch /\
               ch <> EMPTY_CELL) steps t.
Proof.
  induction steps as [|i steps IH]; intros [|ch t] Hmap Hall Hne;
    try discriminate; [constructor|].
  cbn [map] in Hmap. injection Hmap as Hg Hmap.
  inversion Hall as [|? ? Hb Hall']; subst.
  constructor.
  - repeat split; [exact Hb | exact Hg|]. intros ->. apply Hne. now left.
  - apply IH; [exact Hmap | exact Hall'|]. intros Hin. apply Hne. now right.
Qed.

Section Completeness.

Context `{CAS : SymPy}.

(** X26: no win is missed: when the cells of a straight line of the
    board, from any cell in any of the eight directions, hold at least
    [MIN_EQ_LEN] symbols without an empty cell among them, and their
    string or its reverse is a valid equation for the variable, the scan
    reports a win. *)
Theorem scan_finds_every_line (board : list (list ascii)) (size : Z) (v : ascii)
    (r0 c0 dr dc : Z) (t : str) :
  In (dr, dc) DIRECTIONS ->
  MIN_EQ_LEN <= len t ->
  Forall (fun rc => in_bounds size (fst rc) (snd rc) = true)
         (line r0 c0 dr dc (len t)) ->
  cells_at board (line r0 c0 dr dc (len t)) = map Some t ->
  ~ In EMPTY_CELL t ->
  is_valid_equation t v <> None \/ is_valid_equation (rev t) v <> None ->
  exists w, check_win_board board size v = Some w.
Proof.
  intros Hd Hmin Hall Hcells Hne Hvalid.
  set (k := List.length t) in *.
  assert (Hk : len t = Z.of_nat k) by reflexivity.
  unfold MIN_EQ_LEN in Hmin.
  unfold line, cells_at in *. rewrite Hk in *. rewrite map_map in Hcells.
  cbn [fst snd] in Hcells. rewrite Forall_map in Hall. cbn [fst snd] in Hall.
  (* the origin and the last cell are on the board, so the line fits *)
  assert (H0 : in_bounds size (r0 + 0 * dr) (c0 + 0 * dc) = true).
  { rewrite Forall_forall in Hall. apply Hall, in_range. lia. }
  assert (Hlast : in_bounds size (r0 + (Z.of_nat k - 1) * dr)
                    (c0 + (Z.of_nat k - 1) * dc) = true).
  { rewrite Forall_forall in Hall. apply Hall, in_range. lia. }
  apply in_bounds_iff in H0. apply in_bounds_iff in Hlast.
  assert (Hfit : Z.of_nat k <= size).
  { cbn [DIRECTIONS In] in Hd.
    destruct Hd as [E|[E|[E|[E|[E|[E|[E|[E|[]]]]]]]]]; injection E as <- <-; lia. }
  assert (Hsplit : range size = range (Z.of_nat k) ++ skipn k (range size)).
  { rewrite <- (firstn_range k size) by lia. symmetry. apply firstn_skipn. }
  pose proof (cells_on_steps board size r0 c0 dr dc _ t Hcells Hall Hne) as HF.
  destruct (run_cells_prefix board size r0 c0 dr dc _ t HF (skipn k (range size)))
    as (cells' & bd & Hrun).
  rewrite <- Hsplit in Hrun.
  set (coords := map (fun i => (r0 + i * dr, c0 + i * dc)) (range (Z.of_nat k))) in *.
  assert (Hlen : List.length coords = List.length t).
  { unfold coords. rewrite length_map, length_range. fold k. lia. }
  destruct (map_fst_combine_eq coords t Hlen) as [Hfst Hsnd].
  assert (Hlc : List.length (combine coords t) = k).
  { rewrite length_combine, Hlen. fold k. lia. }
  assert (Hboth : forall c, In c (both_ways (combine coords t)) ->
                    In c (candidates board size)).
  { intros c Hc. unfold candidates.
    apply in_flat_map. exists r0. split; [apply in_range; lia|].
    apply in_flat_map. exists c0. split; [apply in_range; lia|].
    apply in_flat_map. exists (dr, dc). split; [exact Hd|].
    cbn [fst snd]. rewrite Hrun. apply in_ray_candidates. exists k.
    rewrite length_app, Hlc. repeat split; [lia|lia|unfold MIN_EQ_LEN; lia|].
    rewrite <- Hlc at 1. rewrite firstn_app, firstn_all, Nat.sub_diag.
    cbn [firstn]. now rewrite app_nil_r. }
  destruct (check_win_board board size v) as [w|] eqn:E; [now exists w|].
  rewrite check_win_board_candidates in E.
  pose proof (proj1 (first_some_None _ _) E) as Hnone.
  unfold both_ways in Hboth. rewrite Hfst, Hsnd in Hboth.
  destruct Hvalid as [Hv|Hv]; exfalso; apply Hv.
  - specialize (Hnone (coords, t) (Hboth _ (or_introl eq_refl))).
    unfold try_candidate in Hnone. cbn [fst snd] in Hnone.
    now destruct (is_valid_equation t v).
  - specialize (Hnone (coords, rev t) (Hboth _ (or_intror (or_introl eq_refl)))).
    unfold try_candidate in Hnone. cbn [fst snd] in Hnone.
    now destruct (is_valid_equation (rev t) v).
Qed.

End Completeness.

Lemma scan_finds_every_line_witness :
  In (0, 1) DIRECTIONS /\
  cells_at board_two_lines (line 2 0 0 1 (len (chars "x+2=5")))
    = map Some (chars "x+2=5") /\
  Exact.validate (chars "x+2=5") "x" <> None /\
  exists w, Exact.find_win board_two_lines 6 "x" = Some w.
Proof.
  assert (Hd : In (0, 1) DIRECTIONS) by (now left).
  assert (Hmin : MIN_EQ_LEN <= len (chars "x+2=5")) by (vm_compute; discriminate).
  assert (Hall : Forall (fun rc => in_bounds 6 (fst rc) (snd rc) = true)
                   (line 2 0 0 1 (len (chars "x+2=5"))))
    by (repeat constructor).
  assert (Hcells : cells_at board_two_lines (line 2 0 0 1 (len (chars "x+2=5")))
                   = map Some (chars "x+2=5")) by reflexivity.
  assert (Hne : ~ In EMPTY_CELL (chars "x+2=5"))
    by (intros [H|[H|[H|[H|[H|[]]]]]]; discriminate H).
  assert (Hv : @is_valid_equation Exact.cas (chars "x+2=5") "x" <> None)
    by (vm_compute; discriminate).
  split; [exact Hd|]. split; [exact Hcells|]. split; [exact Hv|].
  exact (@scan_finds_every_line Exact.cas board_two_lines 6 "x" 2 0 0 1 _
           Hd Hmin Hall Hcells Hne (or_introl Hv)).
Defined.
